(** * Nasa hackathon backend: light-curve separators and CSV prediction

    A shallow embedding of [routers/graph.py] and [routers/predict.py].

    Numbers.  The Python code works on [float] values and on numpy
    arrays of dtype [float64] or [int64].  Two embeddings are given.

    - An exact one, on rationals [Q]: sums, differences and comparisons
      are the mathematical ones and two fractions that denote the same
      number ([Qeq], written [==]) stand for the same value.  It carries
      the request handlers and the properties of the detector and of the
      parser that depend only on order and on the shape of the text.

    - A machine one, in the modules [Binary64], [Numpy] and [Unicode]:
      binary64 floats with rounding to nearest, infinities and NaN (the
      standard library's [SpecFloat]), 64-bit integers that wrap around,
      and strings as sequences of Unicode code points.  It carries what
      depends on the computed value of a difference or of a parsed
      number.

    Effects.  A request handler is a computation in a small writer/error
    monad: it logs the library and helper calls it performs (reading the
    upload, calling the detector, creating the temporary file, ...) and
    ends either with a value or with a raised exception. *)

From Stdlib Require Import QArith ZArith NArith List String Ascii Bool Arith Lia Lqa.
From Stdlib Require Import Permutation Sorted.
From Stdlib Require DecimalString.
From Stdlib Require Import Floats.SpecFloat.
Import ListNotations.

Local Open Scope Q_scope.

(** ** Comparisons on numbers, as booleans *)

(** Python [a > b]. *)
Definition Qgtb (a b : Q) : bool :=
  match a ?= b with Gt => true | _ => false end.

(** Python [a <= b]. *)
Definition Qleb (a b : Q) : bool := negb (Qgtb a b).

(** ** numpy / pandas helpers used by the detector *)

(** Insertion of one value in an ascending list. *)
Fixpoint insert_sorted (x : Q) (l : list Q) : list Q :=
  match l with
  | [] => [x]
  | h :: t => if Qleb x h then x :: h :: t else h :: insert_sorted x t
  end.

(** [Series.sort_values()]: the values in ascending order. *)
Fixpoint sort_values (l : list Q) : list Q :=
  match l with
  | [] => []
  | x :: t => insert_sorted x (sort_values t)
  end.

(** [np.diff(t)]: [t[i+1] - t[i]] for every [i] in [0, n-2]. *)
Fixpoint np_diff (t : list Q) : list Q :=
  match t with
  | a :: (b :: _) as t' => (b - a) :: np_diff t'
  | _ => []
  end.

(** Boolean-mask indexing [a[mask]]. *)
Fixpoint mask_select {A : Type} (a : list A) (mask : list bool) : list A :=
  match a, mask with
  | x :: a', m :: mask' =>
      if m then x :: mask_select a' mask' else mask_select a' mask'
  | _, _ => []
  end.

(** ** [detect_separators] (graph.py, lines 33-44)

    The argument [times] is the column [df["time"]]. *)
Definition detect_separators (times : list Q) (gap_threshold : Q) : list Q :=
  let t := sort_values times in
  if (List.length t <? 2)%nat then []
  else
    let diffs := np_diff t in
    let gaps := mask_select (tl t) (map (fun d => Qgtb d gap_threshold) diffs) in
    gaps.

(** ** [_parse_separators] (graph.py, lines 16-30)

    Strings are scanned as lists of characters.  The regular expression
    [[+-]?\d+(?:\.\d+)?] is embedded as the matcher [match_number];
    [\d] is restricted to the ASCII digits. *)

Local Open Scope char_scope.

Definition is_digit (c : ascii) : bool :=
  let n := nat_of_ascii c in ((48 <=? n) && (n <=? 57))%nat.

Definition is_sign (c : ascii) : bool := (c =? "+") || (c =? "-").

(** [s.replace(",", " ")]. *)
Definition replace_comma (s : list ascii) : list ascii :=
  map (fun c => if c =? "," then " " else c) s.

(** [\d*], greedy: the longest prefix of digits and what follows it. *)
Fixpoint span_digits (s : list ascii) : list ascii * list ascii :=
  match s with
  | c :: s' =>
      if is_digit c then let (ds, r) := span_digits s' in (c :: ds, r)
      else ([], s)
  | [] => ([], [])
  end.

(** [\d+(?:\.\d+)?] at the head of [s]: the matched text and the rest.
    The optional group is taken only when a digit follows the dot. *)
Definition match_unsigned (s : list ascii) : option (list ascii * list ascii) :=
  match span_digits s with
  | ([], _) => None
  | (ds, r) =>
      match r with
      | "." :: r' =>
          match span_digits r' with
          | ([], _) => Some (ds, r)
          | (fs, r'') => Some (ds ++ "." :: fs, r'')
          end
      | _ => Some (ds, r)
      end
  end.

(** [[+-]?\d+(?:\.\d+)?] at the head of [s].  When the sign is taken and
    no digit follows, the matcher backtracks to the empty sign. *)
Definition match_number (s : list ascii) : option (list ascii * list ascii) :=
  match s with
  | c :: s' =>
      if is_sign c then
        match match_unsigned s' with
        | Some (tok, r) => Some (c :: tok, r)
        | None => match_unsigned s
        end
      else match_unsigned s
  | [] => None
  end.

(** [re.findall]: the non-overlapping matches, leftmost first.  [skip]
    counts the characters of the current match still to be stepped over,
    so the scan resumes right after a match. *)
Fixpoint findall_skip (skip : nat) (s : list ascii) : list (list ascii) :=
  match s with
  | [] => []
  | _ :: s' =>
      match skip with
      | S k => findall_skip k s'
      | O =>
          match match_number s with
          | Some (tok, _) => tok :: findall_skip (List.length tok - 1) s'
          | None => findall_skip 0 s'
          end
      end
  end.

Definition findall (s : list ascii) : list (list ascii) := findall_skip 0 s.

Definition digit_value (c : ascii) : Z := Z.of_nat (nat_of_ascii c - 48).

(** The integer written by a run of digits. *)
Definition digits_value (ds : list ascii) : Z :=
  fold_left (fun acc c => (10 * acc + digit_value c)%Z) ds 0%Z.

(** [float(x)] on an unsigned decimal literal: digits, optionally a dot
    and more digits, at least one digit in all. *)
Definition float_unsigned (s : list ascii) : option Q :=
  let (ds, r) := span_digits s in
  match r with
  | [] =>
      match ds with
      | [] => None
      | _ => Some (inject_Z (digits_value ds))
      end
  | "." :: fs =>
      if forallb is_digit fs && negb ((List.length ds + List.length fs =? 0)%nat)
      then Some (Qmake (digits_value (ds ++ fs))
                       (Z.to_pos (10 ^ Z.of_nat (List.length fs))))
      else None
  | _ => None
  end.

(** [float(x)] on plain decimal literals; [None] stands for [ValueError].
    The other spellings Python accepts (exponents, [inf], [nan], blanks,
    underscores) are not produced by the regular expression and are
    answered [None] here. *)
Definition float (s : list ascii) : option Q :=
  match s with
  | "+" :: s' => float_unsigned s'
  | "-" :: s' => option_map Qopp (float_unsigned s')
  | _ => float_unsigned s
  end.

(** [[float(x) for x in nums]], [None] as soon as one conversion raises. *)
Fixpoint floats (nums : list (list ascii)) : option (list Q) :=
  match nums with
  | [] => Some []
  | x :: nums' =>
      match float x, floats nums' with
      | Some q, Some qs => Some (q :: qs)
      | _, _ => None
      end
  end.

Definition _parse_separators (s : option string) : list Q :=
  match s with
  | None => []
  | Some EmptyString => []
  | Some s =>
      let s := replace_comma (list_ascii_of_string s) in
      let nums := findall s in
      match floats nums with
      | Some xs => xs
      | None => []
      end
  end.

Local Close Scope char_scope.

(** ** Strings *)

Local Open Scope string_scope.

(** [s.endswith(suffix)]. *)
Definition endswith (s suffix : string) : bool :=
  let n := String.length s in
  let m := String.length suffix in
  if (m <=? n)%nat then String.eqb (substring (n - m) m s) suffix else false.

(** [sep.join(l)]. *)
Fixpoint join (sep : string) (l : list string) : string :=
  match l with
  | [] => ""
  | [x] => x
  | x :: l' => x ++ sep ++ join sep l'
  end.

(** [str(i)] for a natural number. *)
Definition str_of_nat (i : nat) : string :=
  DecimalString.NilZero.string_of_uint (Nat.to_uint i).

(** ** Data frames

    A table is the list of its columns, each a name and its cells, in
    the order of [df.columns]; all columns have the same length. *)

Definition DataFrame (A : Type) : Type := list (string * list A).

Definition columns {A} (df : DataFrame A) : list string := map fst df.

Definition nrows {A} (df : DataFrame A) : nat :=
  match df with
  | [] => O
  | (_, col) :: _ => List.length col
  end.

Definition has_column {A} (c : string) (df : DataFrame A) : bool :=
  existsb (String.eqb c) (columns df).

(** [df[c]]; [None] stands for [KeyError]. *)
Fixpoint get_column {A} (c : string) (df : DataFrame A) : option (list A) :=
  match df with
  | [] => None
  | (n, col) :: df' => if String.eqb n c then Some col else get_column c df'
  end.

(** [df[c] = v]: an existing column is replaced where it stands, a new
    one is appended.  [None] stands for the [ValueError] pandas raises
    when [v] has not one value per row. *)
Definition set_column {A} (c : string) (v : list A) (df : DataFrame A)
  : option (DataFrame A) :=
  match df with
  | [] => Some [(c, v)]
  | _ =>
      if (List.length v =? nrows df)%nat then
        if has_column c df
        then Some (map (fun nc => if String.eqb (fst nc) c then (fst nc, v) else nc) df)
        else Some (df ++ [(c, v)])%list
      else None
  end.

(** [df[names]]: the named columns, in the order of [names]. *)
Fixpoint select_columns {A} (names : list string) (df : DataFrame A)
  : option (DataFrame A) :=
  match names with
  | [] => Some []
  | n :: names' =>
      match get_column n df, select_columns names' df with
      | Some col, Some rest => Some ((n, col) :: rest)
      | _, _ => None
      end
  end.

(** Stable insertion of the row index [i] among indices ordered by [key]. *)
Fixpoint insert_index (key : nat -> Q) (i : nat) (l : list nat) : list nat :=
  match l with
  | [] => [i]
  | h :: t =>
      if Qleb (key i) (key h) then i :: h :: t else h :: insert_index key i t
  end.

(** The row order that sorts [v] ascending. *)
Definition argsort (v : list Q) : list nat :=
  fold_right (insert_index (fun i => nth i v 0)) [] (seq 0 (List.length v)).

(** [df.sort_values(by).reset_index(drop=True)] on a numeric table; rows
    with the same key keep their order. *)
Definition sort_values_by (by_ : string) (df : DataFrame Q) : option (DataFrame Q) :=
  match get_column by_ df with
  | None => None
  | Some v =>
      let idx := argsort v in
      Some (map (fun nc => (fst nc, map (fun i => nth i (snd nc) 0) idx)) df)
  end.

(** ** Requests, responses, exceptions *)

(** An uploaded file: its name and what [pd.read_csv(file.file)] makes of
    its bytes, a table or the message of the exception pandas raises. *)
Record UploadFile (A : Type) : Type := {
  filename : string;
  read_csv_result : string + DataFrame A
}.
Arguments filename {A} _.
Arguments read_csv_result {A} _.

Record FileResponse (A : Type) : Type := {
  content : A;
  media_type : string;
  download_name : string
}.
Arguments content {A} _.
Arguments media_type {A} _.
Arguments download_name {A} _.

Inductive exn : Type :=
| HTTPException (status_code : Z) (detail : string)
| Exception (msg : string).

(** What a handler does besides computing its answer. *)
Inductive event : Type :=
| ev_read_csv
| ev_detect_separators (gap_threshold : Q)
| ev_tempfile (suffix : string)
| ev_savefig
| ev_predict_proba
| ev_predict
| ev_to_csv
| ev_close.

(** The events that produce output: the temporary file and what is
    written to it. *)
Definition is_output (e : event) : bool :=
  match e with
  | ev_tempfile _ | ev_savefig | ev_to_csv => true
  | _ => false
  end.

(** ** The handler monad: a log of events and a value or an exception *)

Definition M (A : Type) : Type := list event * (exn + A).

Definition ret {A} (a : A) : M A := ([], inr a).

Definition raise {A} (e : exn) : M A := ([], inl e).

Definition bind {A B} (m : M A) (k : A -> M B) : M B :=
  match m with
  | (log, inl e) => (log, inl e)
  | (log, inr a) => let (log', r) := k a in ((log ++ log')%list, r)
  end.

Notation "x <- m ;; k" := (bind m (fun x => k))
  (at level 61, m at next level, right associativity).
Notation "m ;;; k" := (bind m (fun _ => k))
  (at level 61, right associativity).

Definition tell (e : event) : M unit := ([e], inr tt).

(** A library call: logged, and its failure raised as [Exception]. *)
Definition call {A} (e : event) (r : string + A) : M A :=
  tell e ;;;
  match r with
  | inl msg => raise (Exception msg)
  | inr a => ret a
  end.

(** A lookup that raises [KeyError] when it finds nothing. *)
Definition key_error {A} (key : string) (r : option A) : M A :=
  match r with
  | Some a => ret a
  | None => raise (Exception ("'" ++ key ++ "'"))
  end.

(** [if cond: raise e]. *)
Definition raise_if (cond : bool) (e : exn) : M unit :=
  if cond then raise e else ret tt.

(** The [try: ... except HTTPException: raise / except Exception as e:
    raise HTTPException(500, prefix + str(e)) / finally: file.file.close()]
    frame shared by the two handlers. *)
Definition try_handler {A} (prefix : string) (body : M A) : M A :=
  let (log, r) := body in
  ((log ++ [ev_close])%list,
   match r with
   | inl (HTTPException code detail) => inl (HTTPException code detail)
   | inl (Exception msg) => inl (HTTPException 500 (prefix ++ msg))
   | inr a => inr a
   end).

(** A form field with a default: the default stands in for an absent field. *)
Definition Form {A} (default : A) (v : option A) : A :=
  match v with
  | Some a => a
  | None => default
  end.

(** ** [csv_to_graph] (graph.py, lines 47-136) *)

(** One dashed vertical line with its label. *)
Record VLine : Type := {
  vl_x : Q;
  vl_color : string;
  vl_text : string
}.

(** What is drawn: labels, the scattered samples and the vertical lines,
    in drawing order. *)
Record Figure : Type := {
  fig_title : string;
  fig_xlabel : string;
  fig_ylabel : string;
  fig_scatter : list (Q * Q);
  fig_vlines : list VLine
}.

(** [for i, x in enumerate(xs, start=i): axvline(x); text(x, f"Q{i}")]. *)
Fixpoint draw_separators (color : string) (i : nat) (xs : list Q) : list VLine :=
  match xs with
  | [] => []
  | x :: xs' =>
      {| vl_x := x; vl_color := color; vl_text := "Q" ++ str_of_nat i |}
        :: draw_separators color (S i) xs'
  end.

(** The multipart form of [POST /api/graph/from_csv]; an absent optional
    field is [None].  The uploaded table is numeric. *)
Record GraphForm : Type := {
  file : UploadFile Q;
  title : option string;
  x_label : option string;
  y_label : option string;
  separators : option string;
  sep_color : option string;
  auto_gap_threshold : option Q
}.

(** [set(required).issubset(cols)]. *)
Definition issubset (required cols : list string) : bool :=
  forallb (fun c => existsb (String.eqb c) cols) required.

(** The handler.  [plt fig] is what matplotlib answers when it draws and
    saves [fig]: [None] on success, [Some msg] for the exception raised. *)
Definition csv_to_graph (plt : Figure -> option string) (form : GraphForm)
  : M (FileResponse Figure) :=
  try_handler "Error al procesar el CSV: " (
    raise_if (negb (endswith (filename (file form)) ".csv"))
      (HTTPException 400 "El archivo debe ser un CSV.") ;;;
    df <- call ev_read_csv (read_csv_result (file form)) ;;
    raise_if (negb (issubset ["time"; "flux"] (columns df)))
      (HTTPException 400 "El CSV debe contener las columnas 'time' y 'flux'.") ;;;
    df <- key_error "time" (sort_values_by "time" df) ;;
    let xs := _parse_separators (separators form) in
    xs <- match xs with
          | [] =>
              let gap_threshold := Form 20 (auto_gap_threshold form) in
              times <- key_error "time" (get_column "time" df) ;;
              tell (ev_detect_separators gap_threshold) ;;;
              ret (detect_separators times gap_threshold)
          | _ => ret xs
          end ;;
    tell (ev_tempfile ".png") ;;;
    times <- key_error "time" (get_column "time" df) ;;
    flux <- key_error "flux" (get_column "flux" df) ;;
    let fig :=
      {| fig_title := Form "Kepler Full-Mission Light Curve" (title form);
         fig_xlabel := Form "Time [BKJD]" (x_label form);
         fig_ylabel := Form "Relative Flux" (y_label form);
         fig_scatter := combine times flux;
         fig_vlines := draw_separators (Form "black" (sep_color form)) 1 xs |} in
    call ev_savefig (match plt fig with Some msg => inl msg | None => inr tt end) ;;;
    ret {| content := fig;
           media_type := "image/png";
           download_name := "lightcurve_panorama.png" |}).

(** ** [predict_from_csv] (predict.py, lines 42-95) *)

(** A cell of the uploaded table: a number or a text. *)
Inductive cell : Type :=
| Num (q : Q)
| Str (s : string).

Definition FEATURE_COLS : list string :=
  [ "koi_score"; "koi_fpflag_nt"; "koi_fpflag_ss"; "koi_fpflag_co";
    "koi_fpflag_ec"; "koi_period"; "koi_impact"; "koi_duration";
    "koi_depth"; "koi_prad"; "koi_teq"; "koi_insol"; "koi_model_snr";
    "koi_steff"; "koi_slogg"; "koi_srad" ].

(** The pickled pipeline, loaded once when the module is imported and
    opaque to the handler.  [imputer_feature_names_in_] is
    [model.named_steps['imputer'].feature_names_in_], [None] when that
    lookup raises; [predict_proba_1 X] is [model.predict_proba(X)[:, 1]]
    and [predict X] is [model.predict(X)], each a list with one value per
    row or the message of the exception raised. *)
Record Pipeline : Type := {
  imputer_feature_names_in_ : option (list string);
  predict_proba_1 : DataFrame cell -> string + list Q;
  predict : DataFrame cell -> string + list cell
}.

(** A column assignment that raises [ValueError] on a length mismatch. *)
Definition value_error {A} (r : option A) : M A :=
  match r with
  | Some a => ret a
  | None =>
      raise (Exception "Length of values does not match length of index")
  end.

Definition is_nil {A} (l : list A) : bool :=
  match l with
  | [] => true
  | _ => false
  end.

Definition predict_from_csv (model : Pipeline) (file : UploadFile cell)
  : M (FileResponse (DataFrame cell)) :=
  try_handler "Error en la predicción: " (
    raise_if (negb (endswith (filename file) ".csv"))
      (HTTPException 400 "El archivo debe ser un CSV.") ;;;
    df <- call ev_read_csv (read_csv_result file) ;;
    feature_names <-
      match imputer_feature_names_in_ model with
      | Some names => ret names
      | None =>
          raise (HTTPException 500
                   "El modelo cargado no contiene 'imputer' en el pipeline.")
      end ;;
    let missing := filter (fun c => negb (has_column c df)) feature_names in
    raise_if (negb (is_nil missing))
      (HTTPException 400 ("Faltan columnas requeridas: " ++ join ", " missing)) ;;;
    X_pred <- key_error "columns" (select_columns feature_names df) ;;
    y_pred_proba <- call ev_predict_proba (predict_proba_1 model X_pred) ;;
    y_pred <- call ev_predict (predict model X_pred) ;;
    df <- value_error (set_column "prob_confirme_planeta" (map Num y_pred_proba) df) ;;
    df <- value_error (set_column "prediccion" y_pred df) ;;
    tell (ev_tempfile ".csv") ;;;
    tell ev_to_csv ;;;
    ret {| content := df;
           media_type := "text/csv";
           download_name := "predicciones_exoplanetas.csv" |}).

Local Close Scope string_scope.

(** ** The detector as the specification words it

    From the specification: over the ascending sort [sorted] of the
    input, [diff[i] = sorted[i+1] - sorted[i]] for [i] in [0, n-2], and
    for every [i] where [diff[i] > threshold] the value [sorted[i+1]] is
    emitted, in ascending order of [i]. *)
Definition spec_boundaries (sorted : list Q) (threshold : Q) : list Q :=
  map (fun i => nth (S i) sorted 0)
      (filter (fun i => Qgtb (nth (S i) sorted 0 - nth i sorted 0) threshold)
              (seq 0 (List.length sorted - 1))).

(** The last lines of the detector, on the sorted array [t]:
    [t[1:][np.diff(t) > gap_threshold]]. *)
Definition gaps_of (t : list Q) (gap_threshold : Q) : list Q :=
  mask_select (tl t) (map (fun d => Qgtb d gap_threshold) (np_diff t)).

(** The same numbers, entry by entry. *)
Definition same_numbers (l l' : list Q) : Prop := Forall2 Qeq l l'.

(** ** Separator characters

    A separator character is one that cannot be part of a numeral:
    neither a digit, nor a sign, nor a dot. *)
Definition separator_char (c : ascii) : bool :=
  negb (is_digit c || is_sign c || (c =? ".")%char).

(** ** Vocabulary of the claims on the two handlers *)

Local Open Scope string_scope.

(** The message [detail] names the column [c]: [c] occurs in it. *)
Definition names (detail c : string) : Prop :=
  exists before after, detail = before ++ c ++ after.

(** The outcome is an HTTP error with a 4xx status. *)
Definition client_error {A} (r : exn + A) : Prop :=
  match r with
  | inl (HTTPException code _) => (400 <= code < 500)%Z
  | _ => False
  end.

(** Nothing was written: no temporary file, no image, no CSV. *)
Definition no_output (log : list event) : Prop :=
  forallb (fun e => negb (is_output e)) log = true.

(** The detector was called, with some threshold. *)
Definition detector_called (log : list event) : Prop :=
  exists gap_threshold, In (ev_detect_separators gap_threshold) log.

(** ** Sample requests *)

Definition plt_ok : Figure -> option string := fun _ => None.

(** A light curve of four samples, uploaded unsorted. *)
Definition sample_form (separators : option string)
                       (auto_gap_threshold : option Q) : GraphForm :=
  {| file := {| filename := "lightcurve.csv";
                read_csv_result :=
                  inr [("time", [35; 0; 30; 5]); ("flux", [1; 2; 3; 4])] |};
     title := None;
     x_label := None;
     y_label := None;
     separators := separators;
     sep_color := None;
     auto_gap_threshold := auto_gap_threshold |}.

(** A form that carries an upload and nothing else. *)
Definition bare_form (upload : UploadFile Q) : GraphForm :=
  {| file := upload;
     title := None;
     x_label := None;
     y_label := None;
     separators := None;
     sep_color := None;
     auto_gap_threshold := None |}.

(** A pipeline that declares the sixteen features and scores every row
    with probability one half and label 1. *)
Definition sample_model : Pipeline :=
  {| imputer_feature_names_in_ := Some FEATURE_COLS;
     predict_proba_1 := fun X => inr (repeat (1 # 2) (nrows X));
     predict := fun X => inr (repeat (Num 1) (nrows X)) |}.

(** Two candidate rows with the sixteen features, followed by the given
    extra columns. *)
Definition sample_upload (extra : DataFrame cell) : UploadFile cell :=
  {| filename := "candidates.csv";
     read_csv_result :=
       inr (map (fun c => (c, [Num 1; Num 2])) FEATURE_COLS ++ extra)%list |}.

Local Close Scope string_scope.

(** * The same code on machine numbers

    The definitions above compute with exact rationals.  What follows
    embeds the detector and the parser on the numbers the program really
    holds: binary64 floats ([float], numpy [float64]), as specified by the
    standard library's [SpecFloat], and 64-bit integers that wrap around
    (numpy [int64], the type pandas gives a column of whole numbers). *)

Module Binary64.

Definition prec : Z := 53.
Definition emax : Z := 1024.

(** A binary64 value: a zero, an infinity, NaN, or [(-1)^s * m * 2^e]
    with [m] and [e] in canonical form. *)
Definition float64 : Type := spec_float.

Definition nan : float64 := S754_nan.

Definition is_nan (x : float64) : bool :=
  match x with
  | S754_nan => true
  | _ => false
  end.

(** [x - y], rounded to nearest, ties to even. *)
Definition sub (x y : float64) : float64 := SFsub prec emax x y.

(** [x > y]; false as soon as one side is NaN. *)
Definition gtb (x y : float64) : bool := SFltb y x.

(** [x <= y]; false as soon as one side is NaN. *)
Definition leb (x y : float64) : bool := SFleb x y.

(** [-x]. *)
Definition opp (x : float64) : float64 := SFopp x.

(** The float nearest to the integer [z] (ties to even): the conversion
    numpy applies to an [int64] before comparing it with a float. *)
Definition of_Z (z : Z) : float64 := binary_normalize prec emax z 0 false.

(** The float nearest to the rational [q] (ties to even, overflow to
    infinity): what [float] makes of a decimal literal that denotes
    [q].  The quotient is computed with more than 64 significant bits
    and rounded once, with the position of the remainder. *)
Definition of_Q (q : Q) : float64 :=
  match Qnum q with
  | Z0 => S754_zero false
  | n =>
      let a := Z.abs n in
      let d := Zpos (Qden q) in
      let s := Z.max 0 (Z.log2 d + 66 - Z.log2 a) in
      let (quo, rem) := Z.div_eucl (Z.shiftl a s) d in
      binary_round_aux prec emax (n <? 0)%Z quo (- s) (new_location d rem)
  end.

(** The real number a finite float denotes. *)
Definition exact (x : float64) : option Q :=
  match x with
  | S754_zero _ => Some 0
  | S754_finite s m e =>
      Some (inject_Z (if s then Zneg m else Zpos m) * Qpower 2 e)
  | _ => None
  end.

End Binary64.

Module Numpy.

Import Binary64.

Section Array.

(** An array of entries [T]; [le] is the order [sort_values] sorts
    by, [minus b a] the difference [b - a] as [np.diff] computes it
    in the dtype of the array, [exceeds d] the test
    [d > gap_threshold]. *)
Context {T D : Type}.
Variable le : T -> T -> bool.
Variable minus : T -> T -> D.
Variable exceeds : D -> bool.

Fixpoint insert_sorted (x : T) (l : list T) : list T :=
  match l with
  | [] => [x]
  | h :: t => if le x h then x :: h :: t else h :: insert_sorted x t
  end.

(** [Series.sort_values()]. *)
Fixpoint sort_values (l : list T) : list T :=
  match l with
  | [] => []
  | x :: t => insert_sorted x (sort_values t)
  end.

(** [np.diff(t)]. *)
Fixpoint np_diff (t : list T) : list D :=
  match t with
  | a :: (b :: _) as t' => minus b a :: np_diff t'
  | _ => []
  end.

(** The body of [detect_separators] on the values of the column. *)
Definition detect (times : list T) : list T :=
  let t := sort_values times in
  if (List.length t <? 2)%nat then []
  else
    let diffs := np_diff t in
    let gaps := mask_select (tl t) (map exceeds diffs) in
    gaps.

(** From the specification, with the difference and the comparison
    of the array's dtype: for every [i] in [0, n-2] where
    [diff[i] > threshold], [sorted[i+1]] is emitted. *)
Definition spec_boundaries (default : T) (sorted : list T) : list T :=
  map (fun i => nth (S i) sorted default)
      (filter (fun i => exceeds (minus (nth (S i) sorted default)
                                       (nth i sorted default)))
              (seq 0 (List.length sorted - 1))).

End Array.

(** The order of [sort_values] on floats: ascending, NaN last. *)
Definition float64_le (x y : float64) : bool := is_nan y || leb x y.

(** A 64-bit two's complement result: [z] wrapped into
    [-2^63, 2^63). *)
Definition wrap_int64 (z : Z) : Z :=
  ((z + 2 ^ 63) mod 2 ^ 64 - 2 ^ 63)%Z.

(** [b - a] on [int64]. *)
Definition int64_sub (b a : Z) : Z := wrap_int64 (b - a).

(** The column [df["time"]] as pandas reads it from a CSV of numbers:
    [float64], or [int64] when every cell is a whole number. *)
Inductive Series : Type :=
| Float64 (values : list float64)
| Int64 (values : list Z).

Definition size (s : Series) : nat :=
  match s with
  | Float64 v => List.length v
  | Int64 v => List.length v
  end.

(** [detect_separators] (graph.py, lines 33-44) on a numeric column.
    The threshold is a Python [float]; an [int64] difference is
    converted to [float64] for the comparison. *)
Definition detect_separators (times : Series) (gap_threshold : float64)
  : Series :=
  match times with
  | Float64 v =>
      Float64 (detect float64_le sub (fun d => gtb d gap_threshold) v)
  | Int64 v =>
      Int64 (detect Z.leb int64_sub
                    (fun d => gtb (of_Z d) gap_threshold) v)
  end.

(** The boundaries of a sorted [float64] array, as the specification
    words them, with the rounded difference. *)
Definition boundaries_float64 (sorted : list float64) (threshold : float64)
  : list float64 :=
  spec_boundaries sub (fun d => gtb d threshold) nan sorted.

(** The boundaries of a sorted [int64] array, with the wrapped
    difference. *)
Definition boundaries_int64 (sorted : list Z) (threshold : float64)
  : list Z :=
  spec_boundaries int64_sub (fun d => gtb (of_Z d) threshold) 0%Z sorted.

End Numpy.

Module Unicode.

Import Binary64.

(** A Python [str] is a sequence of Unicode code points. *)
Definition codepoint : Type := N.

(** The code points of a text written in ASCII. *)
Definition of_ascii (s : string) : list codepoint :=
  map N_of_ascii (list_ascii_of_string s).

Section Parser.

(** [unicode_decimal c] is the digit value of a decimal digit [c]
    outside ASCII (Arabic-Indic, Devanagari, fullwidth, ...), [None]
    for every other character: the table of [unicodedata.decimal],
    which [\d] and [float] both follow and which grows with the
    Unicode version. *)
Variable unicode_decimal : codepoint -> option N.

Local Open Scope N_scope.

(** The value of [c] as a decimal digit, if it is one. *)
Definition decimal (c : codepoint) : option N :=
  if c <? 128 then
    if (48 <=? c) && (c <=? 57) then Some (c - 48) else None
  else unicode_decimal c.

(** [\d]. *)
Definition is_digit (c : codepoint) : bool :=
  match decimal c with
  | Some _ => true
  | None => false
  end.

(** [[+-]]. *)
Definition is_sign (c : codepoint) : bool := (c =? 43) || (c =? 45).

(** [\.]. *)
Definition is_dot (c : codepoint) : bool := c =? 46.

(** [s.replace(",", " ")]. *)
Definition replace_comma (s : list codepoint) : list codepoint :=
  map (fun c => if c =? 44 then 32 else c) s.

(** [\d*], greedy. *)
Fixpoint span_digits (s : list codepoint)
  : list codepoint * list codepoint :=
  match s with
  | c :: s' =>
      if is_digit c then let (ds, r) := span_digits s' in (c :: ds, r)
      else ([], s)
  | [] => ([], [])
  end.

(** [\d+(?:\.\d+)?] at the head of [s]. *)
Definition match_unsigned (s : list codepoint)
  : option (list codepoint * list codepoint) :=
  match span_digits s with
  | ([], _) => None
  | (ds, r) =>
      match r with
      | c :: r' =>
          if is_dot c then
            match span_digits r' with
            | ([], _) => Some (ds, r)
            | (fs, r'') => Some (ds ++ c :: fs, r'')
            end
          else Some (ds, r)
      | [] => Some (ds, r)
      end
  end.

(** [[+-]?\d+(?:\.\d+)?] at the head of [s], backtracking to the
    empty sign when no digit follows the sign. *)
Definition match_number (s : list codepoint)
  : option (list codepoint * list codepoint) :=
  match s with
  | c :: s' =>
      if is_sign c then
        match match_unsigned s' with
        | Some (tok, r) => Some (c :: tok, r)
        | None => match_unsigned s
        end
      else match_unsigned s
  | [] => None
  end.

(** [re.findall]: the non-overlapping matches, leftmost first;
    [skip] counts the characters of the current match still to be
    stepped over. *)
Fixpoint findall_skip (skip : nat) (s : list codepoint)
  : list (list codepoint) :=
  match s with
  | [] => []
  | _ :: s' =>
      match skip with
      | S k => findall_skip k s'
      | O =>
          match match_number s with
          | Some (tok, _) => tok :: findall_skip (List.length tok - 1) s'
          | None => findall_skip 0 s'
          end
      end
  end.

Definition findall (s : list codepoint) : list (list codepoint) :=
  findall_skip 0 s.

Definition digit_value (c : codepoint) : Z :=
  match decimal c with
  | Some v => Z.of_N v
  | None => 0%Z
  end.

(** The integer written by a run of digits. *)
Definition digits_value (ds : list codepoint) : Z :=
  fold_left (fun acc c => (10 * acc + digit_value c)%Z) ds 0%Z.

(** The rational written by the digits [ds], a dot and the digits
    [fs]. *)
Definition decimal_fraction (ds fs : list codepoint) : Q :=
  Qmake (digits_value (ds ++ fs))
        (Z.to_pos (10 ^ Z.of_nat (List.length fs))).

(** [float(x)] on an unsigned decimal literal: digits, optionally a
    dot and more digits, at least one digit in all; the value is
    rounded to the nearest double. *)
Definition float_unsigned (s : list codepoint) : option float64 :=
  let (ds, r) := span_digits s in
  match r with
  | [] =>
      match ds with
      | [] => None
      | _ => Some (of_Q (decimal_fraction ds []))
      end
  | c :: fs =>
      if is_dot c && forallb is_digit fs
         && negb ((List.length ds + List.length fs =? 0)%nat)
      then Some (of_Q (decimal_fraction ds fs))
      else None
  end.

(** [float(x)] on plain decimal literals; [None] stands for
    [ValueError].  The other spellings Python accepts (exponents,
    [inf], [nan], blanks, underscores) are not produced by the
    regular expression and are answered [None] here. *)
Definition float (s : list codepoint) : option float64 :=
  match s with
  | c :: s' =>
      if c =? 43 then float_unsigned s'
      else if c =? 45 then option_map opp (float_unsigned s')
      else float_unsigned s
  | [] => None
  end.

(** [[float(x) for x in nums]]. *)
Fixpoint floats (nums : list (list codepoint)) : option (list float64) :=
  match nums with
  | [] => Some []
  | x :: nums' =>
      match float x, floats nums' with
      | Some q, Some qs => Some (q :: qs)
      | _, _ => None
      end
  end.

(** [_parse_separators] (graph.py, lines 16-30). *)
Definition _parse_separators (s : option (list codepoint)) : list float64 :=
  match s with
  | None => []
  | Some [] => []
  | Some s =>
      let s := replace_comma s in
      let nums := findall s in
      match floats nums with
      | Some xs => xs
      | None => []
      end
  end.

(** *** Numerals and separators as the specification means them *)

Record numeral : Type := {
  n_sign : option codepoint;
  n_int : list codepoint;
  n_frac : option (list codepoint)
}.

Definition wf_numeral (n : numeral) : bool :=
  match n_sign n with Some c => is_sign c | None => true end
  && (forallb is_digit (n_int n) && negb (is_nil (n_int n)))
  && match n_frac n with
     | Some fs => forallb is_digit fs && negb (is_nil fs)
     | None => true
     end.

Definition numeral_text (n : numeral) : list codepoint :=
  (match n_sign n with Some c => [c] | None => [] end
   ++ n_int n
   ++ match n_frac n with Some fs => 46 :: fs | None => [] end)%list.

(** The rational a numeral denotes, sign apart. *)
Definition numeral_magnitude (n : numeral) : Q :=
  decimal_fraction (n_int n)
                   (match n_frac n with Some fs => fs | None => [] end).

(** The double a numeral denotes: its magnitude rounded to nearest,
    negated under a minus sign. *)
Definition numeral_value (n : numeral) : float64 :=
  match n_sign n with
  | Some 45 => opp (of_Q (numeral_magnitude n))
  | _ => of_Q (numeral_magnitude n)
  end.

(** A character that cannot be part of a numeral. *)
Definition separator_char (c : codepoint) : bool :=
  negb (is_digit c || is_sign c || is_dot c).

(** Where a numeral may end: at the end of the text or before a
    separator character. *)
Definition ends_numeral (r : list codepoint) : Prop :=
  hd_error r = None
  \/ (exists c, hd_error r = Some c /\ separator_char c = true).

Fixpoint separated_text (items : list (numeral * list codepoint))
  : list codepoint :=
  match items with
  | [] => []
  | (n, sep) :: rest => (numeral_text n ++ sep ++ separated_text rest)%list
  end.

Fixpoint well_separated (items : list (numeral * list codepoint)) : bool :=
  match items with
  | [] => true
  | (n, sep) :: rest =>
      wf_numeral n && forallb separator_char sep
      && (negb (is_nil sep) || is_nil rest)
      && well_separated rest
  end.

End Parser.

(** A sample table: the Arabic-Indic digits U+0660 to U+0669. *)
Definition arabic_indic (c : codepoint) : option N :=
  if ((1632 <=? c) && (c <=? 1641))%N then Some (c - 1632)%N else None.

End Unicode.

(** * Proofs *)

(** ** Proof automation for the handlers *)

Ltac run_handler :=
  cbn [bind call tell raise raise_if ret key_error value_error try_handler
       fst snd app negb is_nil].

Ltac not_in_log :=
  let H := fresh in
  intros H; cbn [In] in H;
  repeat (destruct H as [H|H]; [discriminate H|]); destruct H.

(** ** Comparisons *)

Lemma Qgtb_true (a b : Q) : Qgtb a b = true <-> b < a.
Proof.
  unfold Qgtb. rewrite Qgt_alt.
  destruct (a ?= b); split; congruence.
Qed.

Lemma Qgtb_false (a b : Q) : Qgtb a b = false <-> a <= b.
Proof.
  rewrite <- not_true_iff_false, Qgtb_true. split.
  - apply Qnot_lt_le.
  - apply Qle_not_lt.
Qed.

Lemma Qleb_true (a b : Q) : Qleb a b = true <-> a <= b.
Proof.
  unfold Qleb. rewrite negb_true_iff. apply Qgtb_false.
Qed.

Lemma Qleb_false (a b : Q) : Qleb a b = false <-> b < a.
Proof.
  unfold Qleb. rewrite negb_false_iff. apply Qgtb_true.
Qed.

Lemma Qgtb_compat (a a' b b' : Q) :
  a == a' -> b == b' -> Qgtb a b = Qgtb a' b'.
Proof.
  intros Ha Hb. unfold Qgtb. now rewrite Ha, Hb.
Qed.

Lemma Qleb_compat (a a' b b' : Q) :
  a == a' -> b == b' -> Qleb a b = Qleb a' b'.
Proof.
  intros Ha Hb. unfold Qleb. f_equal. now apply Qgtb_compat.
Qed.

(** ** [sort_values] sorts *)

Lemma insert_sorted_perm (x : Q) (l : list Q) :
  Permutation (x :: l) (insert_sorted x l).
Proof.
  induction l as [|h t IH]; simpl.
  - reflexivity.
  - destruct (Qleb x h).
    + reflexivity.
    + rewrite perm_swap. now apply perm_skip.
Qed.

Lemma sort_values_perm (l : list Q) : Permutation l (sort_values l).
Proof.
  induction l as [|x t IH]; simpl.
  - constructor.
  - rewrite <- insert_sorted_perm. now apply perm_skip.
Qed.

Lemma sort_values_length (l : list Q) :
  List.length (sort_values l) = List.length l.
Proof.
  symmetry. apply Permutation_length, sort_values_perm.
Qed.

Lemma insert_sorted_sorted (x : Q) (l : list Q) :
  Sorted Qle l -> Sorted Qle (insert_sorted x l).
Proof.
  induction l as [|h t IH]; simpl; intros Hs.
  - repeat constructor.
  - destruct (Qleb x h) eqn:E.
    + constructor; [assumption|]. constructor. now apply Qleb_true.
    + apply Qleb_false in E.
      apply Sorted_inv in Hs as [Ht Hh].
      constructor; [now apply IH|].
      destruct t as [|h' t']; simpl.
      * constructor. now apply Qlt_le_weak.
      * destruct (Qleb x h').
        -- constructor. now apply Qlt_le_weak.
        -- constructor. now apply HdRel_inv in Hh.
Qed.

Lemma sort_values_sorted (l : list Q) : Sorted Qle (sort_values l).
Proof.
  induction l as [|x t IH]; simpl.
  - constructor.
  - now apply insert_sorted_sorted.
Qed.

(** An ascending list is left as it is. *)
Lemma sort_values_id (s : list Q) : Sorted Qle s -> sort_values s = s.
Proof.
  induction s as [|a t IH]; simpl; intros Hs; [reflexivity|].
  apply Sorted_inv in Hs as [Ht Hh].
  rewrite (IH Ht).
  destruct Hh as [|b t' Hab]; simpl; [reflexivity|].
  apply Qleb_true in Hab. now rewrite Hab.
Qed.

(** ** Sorting depends only on the numbers present *)

Lemma same_numbers_refl (l : list Q) : same_numbers l l.
Proof.
  induction l; constructor; [reflexivity | assumption].
Qed.

Lemma same_numbers_trans (l1 l2 l3 : list Q) :
  same_numbers l1 l2 -> same_numbers l2 l3 -> same_numbers l1 l3.
Proof.
  intros H12. revert l3.
  induction H12 as [|a b l l' Hab _ IH]; intros l3 H23; inversion H23; subst.
  - constructor.
  - constructor; [now rewrite Hab | now apply IH].
Qed.

Lemma insert_sorted_compat (x y : Q) (l l' : list Q) :
  x == y -> same_numbers l l' ->
  same_numbers (insert_sorted x l) (insert_sorted y l').
Proof.
  intros Hxy Hl. induction Hl as [|a b l l' Hab Hl IH]; simpl.
  - repeat constructor. assumption.
  - rewrite (Qleb_compat x y a b Hxy Hab).
    destruct (Qleb y b).
    + constructor; [assumption|]. constructor; assumption.
    + constructor; assumption.
Qed.

Lemma insert_sorted_swap (x y : Q) (l : list Q) :
  same_numbers (insert_sorted x (insert_sorted y l))
               (insert_sorted y (insert_sorted x l)).
Proof.
  induction l as [|h t IH]; simpl.
  - destruct (Qleb x y) eqn:Exy, (Qleb y x) eqn:Eyx;
      try apply same_numbers_refl.
    + apply Qleb_true in Exy, Eyx.
      assert (x == y) by now apply Qle_antisym.
      repeat constructor; [assumption | now symmetry].
    + apply Qleb_false in Exy, Eyx. exfalso.
      apply (Qlt_irrefl x). now apply Qlt_trans with y.
  - destruct (Qleb y h) eqn:Eyh, (Qleb x h) eqn:Exh; simpl;
      rewrite ?Eyh, ?Exh.
    + destruct (Qleb x y) eqn:Exy, (Qleb y x) eqn:Eyx;
        rewrite ?Exh, ?Eyh; try apply same_numbers_refl.
      * apply Qleb_true in Exy, Eyx.
        assert (x == y) by now apply Qle_antisym.
        constructor; [assumption|]. constructor; [now symmetry|].
        apply same_numbers_refl.
      * apply Qleb_false in Exy, Eyx. exfalso.
        apply (Qlt_irrefl x). now apply Qlt_trans with y.
    + assert (Exy : Qleb x y = false).
      { apply Qleb_false. apply Qleb_true in Eyh. apply Qleb_false in Exh.
        now apply Qle_lt_trans with h. }
      rewrite Exy, ?Exh. apply same_numbers_refl.
    + assert (Eyx : Qleb y x = false).
      { apply Qleb_false. apply Qleb_true in Exh. apply Qleb_false in Eyh.
        now apply Qle_lt_trans with h. }
      rewrite Eyx, ?Eyh. apply same_numbers_refl.
    + constructor; [reflexivity | exact IH].
Qed.

Lemma sort_values_compat (l l' : list Q) :
  Permutation l l' -> same_numbers (sort_values l) (sort_values l').
Proof.
  induction 1 as [|x l l' _ IH|x y l|l1 l2 l3 _ IH12 _ IH23]; simpl.
  - constructor.
  - now apply insert_sorted_compat.
  - apply insert_sorted_swap.
  - now apply same_numbers_trans with (sort_values l2).
Qed.

(** Every ascending arrangement of the input is, number for number, the
    one the detector works on. *)
Lemma sorted_perm_sort_values (s times : list Q) :
  Permutation s times -> Sorted Qle s ->
  same_numbers s (sort_values times).
Proof.
  intros Hp Hs. rewrite <- (sort_values_id s Hs) at 1.
  now apply sort_values_compat.
Qed.

(** ** The detector on a sorted array *)

Lemma detect_separators_gaps_of (times : list Q) (thr : Q) :
  detect_separators times thr = gaps_of (sort_values times) thr.
Proof.
  unfold detect_separators, gaps_of.
  destruct (sort_values times) as [|a [|b r]]; reflexivity.
Qed.

Lemma gaps_of_step (a b : Q) (r : list Q) (thr : Q) :
  gaps_of (a :: b :: r) thr =
  (if Qgtb (b - a) thr then [b] else []) ++ gaps_of (b :: r) thr.
Proof.
  unfold gaps_of. simpl. destruct (Qgtb (b - a) thr); reflexivity.
Qed.

Lemma gaps_of_compat (t t' : list Q) (thr : Q) :
  same_numbers t t' -> same_numbers (gaps_of t thr) (gaps_of t' thr).
Proof.
  induction 1 as [|a a' t t' Ha Ht IH]; [constructor|].
  destruct Ht as [|b b' r r' Hb Hr]; [constructor|].
  rewrite !gaps_of_step.
  assert (E : Qgtb (b - a) thr = Qgtb (b' - a') thr).
  { apply Qgtb_compat; [now rewrite Ha, Hb | reflexivity]. }
  rewrite E. destruct (Qgtb (b' - a') thr); simpl.
  - constructor; assumption.
  - assumption.
Qed.

Lemma filter_map_commute {A B : Type} (f : B -> bool) (g : A -> B) (l : list A) :
  filter f (map g l) = map g (filter (fun x => f (g x)) l).
Proof.
  induction l as [|x l IH]; simpl; [reflexivity|].
  destruct (f (g x)); simpl; now rewrite IH.
Qed.

Lemma filter_seq_step (f : nat -> bool) (g : nat -> Q) (n : nat) :
  map g (filter f (seq 0 (S n))) =
  (if f O then [g O] else []) ++
  map (fun i => g (S i)) (filter (fun i => f (S i)) (seq 0 n)).
Proof.
  rewrite <- cons_seq, <- seq_shift. simpl.
  destruct (f O); simpl; rewrite filter_map_commute, map_map; reflexivity.
Qed.

Lemma spec_boundaries_step (a b : Q) (r : list Q) (thr : Q) :
  spec_boundaries (a :: b :: r) thr =
  (if Qgtb (b - a) thr then [b] else []) ++ spec_boundaries (b :: r) thr.
Proof.
  unfold spec_boundaries.
  replace (List.length (a :: b :: r) - 1)%nat with (S (List.length r))
    by (simpl; lia).
  replace (List.length (b :: r) - 1)%nat with (List.length r)
    by (simpl; lia).
  rewrite filter_seq_step. reflexivity.
Qed.

(** The code's mask selection is the index-by-index reading of the
    specification. *)
Lemma gaps_of_spec (t : list Q) (thr : Q) :
  gaps_of t thr = spec_boundaries t thr.
Proof.
  induction t as [|a t IH]; [reflexivity|].
  destruct t as [|b r]; [reflexivity|].
  now rewrite gaps_of_step, spec_boundaries_step, IH.
Qed.

Lemma detect_separators_spec (times s : list Q) (thr : Q) :
  Permutation s times -> Sorted Qle s ->
  same_numbers (detect_separators times thr) (spec_boundaries s thr).
Proof.
  intros Hp Hs.
  rewrite detect_separators_gaps_of, <- gaps_of_spec.
  apply gaps_of_compat.
  generalize (sorted_perm_sort_values s times Hp Hs).
  generalize (sort_values times). clear.
  induction 1; constructor; [now symmetry | assumption].
Qed.

Lemma gaps_of_above (a : Q) (t : list Q) (thr : Q) :
  0 <= thr -> Sorted Qle (a :: t) ->
  Forall (fun x => a < x) (gaps_of (a :: t) thr).
Proof.
  intros Hthr. revert a.
  induction t as [|b r IH]; intros a Hs; [constructor|].
  rewrite gaps_of_step.
  apply Sorted_inv in Hs as [Hs Hab]. apply HdRel_inv in Hab.
  apply Forall_app. split.
  - destruct (Qgtb (b - a) thr) eqn:E; constructor; [|constructor].
    apply Qgtb_true in E. lra.
  - eapply Forall_impl; [|apply (IH b Hs)].
    intros x Hx. simpl in Hx. now apply Qle_lt_trans with b.
Qed.

Lemma gaps_of_increasing (t : list Q) (thr : Q) :
  0 <= thr -> Sorted Qle t -> StronglySorted Qlt (gaps_of t thr).
Proof.
  intros Hthr. induction t as [|a t IH]; intros Hs; [constructor|].
  destruct t as [|b r]; [constructor|].
  rewrite gaps_of_step.
  pose proof (Sorted_inv Hs) as [Hs' _]. specialize (IH Hs').
  destruct (Qgtb (b - a) thr); simpl; [|assumption].
  constructor; [assumption|]. now apply gaps_of_above.
Qed.

Lemma gaps_of_subset (t : list Q) (thr : Q) (x : Q) :
  In x (gaps_of t thr) -> In x (tl t).
Proof.
  induction t as [|a t IH]; [intros []|].
  destruct t as [|b r]; [intros []|].
  rewrite gaps_of_step. intros H. apply in_app_or in H as [H|H].
  - destruct (Qgtb (b - a) thr); [|destruct H].
    destruct H as [<-|[]]. now left.
  - right. now apply IH.
Qed.

Lemma filter_none {A : Type} (f : A -> bool) (l : list A) :
  (forall x, In x l -> f x = false) -> filter f l = [].
Proof.
  induction l as [|x l IH]; simpl; intros H; [reflexivity|].
  rewrite (H x (or_introl eq_refl)). apply IH. intros y Hy. apply H. now right.
Qed.

Lemma same_numbers_nil (l : list Q) : same_numbers l [] -> l = [].
Proof.
  now inversion 1.
Qed.

Lemma increasing_nth (l : list Q) :
  StronglySorted Qlt l ->
  forall i j, (i < j < List.length l)%nat -> nth i l 0 < nth j l 0.
Proof.
  induction 1 as [|a l Hl IH Ha]; intros i j Hij; simpl in Hij; [lia|].
  destruct j as [|j]; [lia|].
  destruct i as [|i]; simpl.
  - rewrite Forall_forall in Ha. apply Ha, nth_In. lia.
  - apply IH. lia.
Qed.

(** ** Claims on the separator detector *)

(** ** The detector on machine numbers *)

Section ArrayFacts.

Context {T D : Type}.
Variable le : T -> T -> bool.
Variable minus : T -> T -> D.
Variable exceeds : D -> bool.

Lemma array_insert_perm (x : T) (l : list T) :
  Permutation (x :: l) (Numpy.insert_sorted le x l).
Proof.
  induction l as [|h t IH]; simpl; [reflexivity|].
  destruct (le x h); [reflexivity|].
  rewrite perm_swap. now apply perm_skip.
Qed.

Lemma array_sort_perm (l : list T) :
  Permutation (Numpy.sort_values le l) l.
Proof.
  induction l as [|x t IH]; simpl; [constructor|].
  rewrite <- array_insert_perm. now apply perm_skip.
Qed.

Hypothesis le_total : forall x y, le x y = false -> le y x = true.

Lemma array_insert_sorted (x : T) (l : list T) :
  Sorted (fun a b => le a b = true) l ->
  Sorted (fun a b => le a b = true) (Numpy.insert_sorted le x l).
Proof.
  induction l as [|h t IH]; simpl; intros Hs; [repeat constructor|].
  destruct (le x h) eqn:E.
  - constructor; [assumption|]. now constructor.
  - apply Sorted_inv in Hs as [Ht Hh].
    constructor; [now apply IH|].
    destruct t as [|h' t']; simpl.
    + constructor. now apply le_total.
    + destruct (le x h').
      * constructor. now apply le_total.
      * constructor. now apply HdRel_inv in Hh.
Qed.

Lemma array_sort_sorted (l : list T) :
  Sorted (fun a b => le a b = true) (Numpy.sort_values le l).
Proof.
  induction l as [|x t IH]; simpl; [constructor|].
  now apply array_insert_sorted.
Qed.

Lemma array_boundaries_step (default a b : T) (r : list T) :
  Numpy.spec_boundaries minus exceeds default (a :: b :: r)
  = (if exceeds (minus b a) then [b] else [])
    ++ Numpy.spec_boundaries minus exceeds default (b :: r).
Proof.
  unfold Numpy.spec_boundaries.
  replace (List.length (a :: b :: r) - 1)%nat with (S (List.length r))
    by (simpl; lia).
  replace (List.length (b :: r) - 1)%nat with (List.length r)
    by (simpl; lia).
  rewrite <- cons_seq, <- seq_shift. simpl.
  destruct (exceeds (minus b a)); simpl;
    rewrite filter_map_commute, map_map; reflexivity.
Qed.

Lemma array_mask_spec (default : T) (t : list T) :
  mask_select (tl t) (map exceeds (Numpy.np_diff minus t))
  = Numpy.spec_boundaries minus exceeds default t.
Proof.
  induction t as [|a t IH]; [reflexivity|].
  destruct t as [|b r]; [reflexivity|].
  rewrite array_boundaries_step, <- IH. simpl.
  destruct (exceeds (minus b a)); reflexivity.
Qed.

Lemma array_detect_spec (default : T) (times : list T) :
  Numpy.detect le minus exceeds times
  = Numpy.spec_boundaries minus exceeds default (Numpy.sort_values le times).
Proof.
  unfold Numpy.detect. rewrite <- array_mask_spec.
  destruct (Numpy.sort_values le times) as [|a [|b r]]; reflexivity.
Qed.

Lemma array_detect_short (times : list T) :
  (List.length times < 2)%nat ->
  Numpy.detect le minus exceeds times = [].
Proof.
  intros H. unfold Numpy.detect.
  rewrite (Permutation_length (array_sort_perm times)).
  apply Nat.ltb_lt in H. now rewrite H.
Qed.

End ArrayFacts.

Lemma SFcompare_antisym (x y : spec_float) :
  SFcompare y x = option_map CompOpp (SFcompare x y).
Proof.
  destruct x as [sx|sx| |sx mx ex], y as [sy|sy| |sy my ey];
    try reflexivity;
    try (destruct sx; reflexivity); try (destruct sy; reflexivity);
    try (destruct sx, sy; reflexivity).
  cbn [SFcompare option_map]. f_equal.
  rewrite (Z.compare_antisym ex ey).
  pose proof (Pos.compare_cont_antisym mx my Eq) as Hm. cbn [CompOpp] in Hm.
  destruct sx, sy; try reflexivity;
    destruct (ex ?= ey)%Z; cbn [CompOpp]; try reflexivity;
    rewrite <- Hm; now destruct (Pos.compare_cont Eq mx my).
Qed.

Lemma float64_le_total (x y : Binary64.float64) :
  Numpy.float64_le x y = false -> Numpy.float64_le y x = true.
Proof.
  unfold Numpy.float64_le, Binary64.leb, SFleb. intros H.
  apply orb_false_iff in H as [Hy H].
  destruct x as [sx|sx| |sx mx ex]; try reflexivity;
    (rewrite SFcompare_antisym;
     destruct (SFcompare _ y) as [[| |]|] eqn:E;
     [discriminate H | discriminate H | reflexivity
      | destruct y; try discriminate Hy; try discriminate E;
        try (destruct sx; discriminate E)]).
Qed.

Lemma int64_le_total (x y : Z) : (x <=? y)%Z = false -> (y <=? x)%Z = true.
Proof.
  intros H. apply Z.leb_gt in H. apply Z.leb_le. lia.
Qed.

(** C1, as stated, fails on the numbers the program computes with.  For
    the doubles nearest to 0.1 and 20.1 the exact gap exceeds the
    threshold 20, yet the rounded difference is exactly 20 and the
    detector returns nothing; for the [int64] column of the least and the
    greatest 64-bit integers the gap is [2^64 - 1], yet the difference
    wraps to [-1] and the detector returns nothing. *)
Lemma detect_separators_rounded_gap :
  (exists a b t : Q,
      Binary64.exact (Binary64.of_Q (1 # 10)) = Some a
      /\ Binary64.exact (Binary64.of_Q (201 # 10)) = Some b
      /\ Binary64.exact (Binary64.of_Z 20) = Some t
      /\ t == 20
      /\ t < b - a
      /\ Binary64.sub (Binary64.of_Q (201 # 10)) (Binary64.of_Q (1 # 10))
         = Binary64.of_Z 20)
  /\ Numpy.detect_separators
       (Numpy.Float64 [Binary64.of_Q (1 # 10); Binary64.of_Q (201 # 10)])
       (Binary64.of_Z 20)
     = Numpy.Float64 []
  /\ (20 < 9223372036854775807 - -9223372036854775808)%Z
  /\ Numpy.int64_sub 9223372036854775807 (-9223372036854775808) = (-1)%Z
  /\ Numpy.detect_separators
       (Numpy.Int64 [-9223372036854775808; 9223372036854775807]%Z)
       (Binary64.of_Z 20)
     = Numpy.Int64 [].
Proof.
  split; [|repeat split; vm_compute; reflexivity].
  eexists. eexists. eexists.
  split; [vm_compute; reflexivity|].
  split; [vm_compute; reflexivity|].
  split; [vm_compute; reflexivity|].
  repeat split; vm_compute; reflexivity.
Qed.

(** C1, amended.  On a [float64] or an [int64] column and a [float]
    threshold, the detector returns exactly the values [sorted[i+1]], in
    the order of [i], at the indices [i] where the difference
    [sorted[i+1] - sorted[i]] as [np.diff] computes it (rounded to the
    nearest double on [float64]; wrapped to 64 bits on [int64], and
    converted to a double for the comparison) is strictly greater than
    the threshold, where [sorted] is the ascending sort of the column
    (NaN last): a permutation of the column in ascending order.  With
    fewer than two values the result is empty; on [0, 5, 30, 35] with
    threshold 20 it is [30]. *)
Theorem detect_separators_machine :
  (forall (times : list Binary64.float64) (threshold : Binary64.float64),
      Numpy.detect_separators (Numpy.Float64 times) threshold
      = Numpy.Float64
          (Numpy.boundaries_float64
             (Numpy.sort_values Numpy.float64_le times) threshold)
      /\ Permutation (Numpy.sort_values Numpy.float64_le times) times
      /\ Sorted (fun a b => Numpy.float64_le a b = true)
                (Numpy.sort_values Numpy.float64_le times))
  /\ (forall (times : list Z) (threshold : Binary64.float64),
         Numpy.detect_separators (Numpy.Int64 times) threshold
         = Numpy.Int64
             (Numpy.boundaries_int64 (Numpy.sort_values Z.leb times) threshold)
         /\ Permutation (Numpy.sort_values Z.leb times) times
         /\ Sorted Z.le (Numpy.sort_values Z.leb times))
  /\ (forall (times : Numpy.Series) (threshold : Binary64.float64),
         (Numpy.size times < 2)%nat ->
         Numpy.size (Numpy.detect_separators times threshold) = 0%nat)
  /\ Numpy.detect_separators
       (Numpy.Float64 (map Binary64.of_Z [0; 5; 30; 35]%Z)) (Binary64.of_Z 20)
     = Numpy.Float64 [Binary64.of_Z 30]
  /\ Numpy.detect_separators (Numpy.Int64 [0; 5; 30; 35]%Z) (Binary64.of_Z 20)
     = Numpy.Int64 [30%Z].
Proof.
  split; [|split; [|split; [|split; vm_compute; reflexivity]]].
  - intros times threshold. split; [|split].
    + cbn [Numpy.detect_separators]. f_equal. apply array_detect_spec.
    + apply array_sort_perm.
    + apply array_sort_sorted, float64_le_total.
  - intros times threshold. split; [|split].
    + cbn [Numpy.detect_separators]. f_equal. apply array_detect_spec.
    + apply array_sort_perm.
    + generalize (array_sort_sorted Z.leb int64_le_total times).
      generalize (Numpy.sort_values Z.leb times). intros l Hs.
      induction Hs as [|a l Hl IH Ha]; constructor; [assumption|].
      destruct Ha; constructor. now apply Z.leb_le.
  - intros [v|v] threshold Hlen; cbn [Numpy.detect_separators Numpy.size] in *;
      now rewrite array_detect_short.
Qed.

Lemma detect_separators_machine_witness :
  Numpy.size
    (Numpy.detect_separators (Numpy.Float64 [Binary64.of_Q (75 # 10)])
                             (Binary64.of_Z 20)) = 0%nat
  /\ Numpy.size
       (Numpy.detect_separators (Numpy.Int64 [7%Z]) (Binary64.of_Z 20)) = 0%nat.
Proof.
  split.
  - apply (proj1 (proj2 (proj2 detect_separators_machine))
                 (Numpy.Float64 [Binary64.of_Q (75 # 10)]) (Binary64.of_Z 20)).
    simpl. lia.
  - apply (proj1 (proj2 (proj2 detect_separators_machine))
                 (Numpy.Int64 [7%Z]) (Binary64.of_Z 20)).
    simpl. lia.
Defined.

(** C2.  When every consecutive gap of the sorted values is at most the
    threshold (a gap equal to the threshold included, the comparison being
    strict), the detector returns the empty list; [0, 20] with threshold
    20 yields the empty list. *)
Theorem detect_separators_tie_excluded :
  (forall (times sorted : list Q) (threshold : Q),
      Permutation sorted times -> Sorted Qle sorted ->
      (forall i, (S i < List.length sorted)%nat ->
                 nth (S i) sorted 0 - nth i sorted 0 <= threshold) ->
      detect_separators times threshold = [])
  /\ detect_separators [0; 20] 20 = [].
Proof.
  split; [|reflexivity].
  intros times sorted threshold Hp Hs Hgaps.
  apply same_numbers_nil.
  replace [] with (spec_boundaries sorted threshold).
  - now apply detect_separators_spec.
  - unfold spec_boundaries. rewrite filter_none; [reflexivity|].
    intros i Hi. apply in_seq in Hi. apply Qgtb_false, Hgaps. lia.
Qed.

Lemma detect_separators_tie_excluded_witness :
  detect_separators [40; 0; 20] 20 = [].
Proof.
  apply (proj1 detect_separators_tie_excluded [40; 0; 20] [0; 20; 40] 20).
  - apply (Permutation_cons_app [40] [20]). apply perm_swap.
  - repeat constructor; unfold Qle; simpl; lia.
  - intros [|[|i]] Hi; simpl in *; [unfold Qle; simpl; lia.. | lia].
Defined.

(** C3.  The detector returns the same numbers on a list and on every
    permutation of it; the unsorted [35, 0, 30, 5] and the sorted
    [0, 5, 30, 35] both yield [30] with threshold 20. *)
Theorem detect_separators_permutation :
  (forall (times times' : list Q) (threshold : Q),
      Permutation times times' ->
      same_numbers (detect_separators times threshold)
                   (detect_separators times' threshold))
  /\ detect_separators [35; 0; 30; 5] 20 = [30]
  /\ detect_separators [0; 5; 30; 35] 20 = [30].
Proof.
  split; [|split; reflexivity].
  intros times times' threshold Hp.
  rewrite !detect_separators_gaps_of.
  now apply gaps_of_compat, sort_values_compat.
Qed.

Lemma detect_separators_permutation_witness :
  same_numbers (detect_separators [35; 0; 30; 5] 20)
               (detect_separators [0; 35; 30; 5] 20).
Proof.
  apply (proj1 detect_separators_permutation).
  apply perm_swap.
Defined.

(** C9.  For a strictly positive threshold the detector's output is
    strictly increasing, so no two of its entries are the same number,
    whatever duplicates the input holds. *)
Theorem detect_separators_strictly_increasing :
  forall (times : list Q) (threshold : Q),
    0 < threshold ->
    StronglySorted Qlt (detect_separators times threshold)
    /\ (forall i j,
           (i < j < List.length (detect_separators times threshold))%nat ->
           ~ nth i (detect_separators times threshold) 0
             == nth j (detect_separators times threshold) 0).
Proof.
  intros times threshold Hthr.
  assert (Hs : StronglySorted Qlt (detect_separators times threshold)).
  { rewrite detect_separators_gaps_of.
    apply gaps_of_increasing; [now apply Qlt_le_weak | apply sort_values_sorted]. }
  split; [assumption|].
  intros i j Hij Heq.
  pose proof (increasing_nth _ Hs i j Hij) as Hlt.
  rewrite Heq in Hlt. now apply Qlt_irrefl in Hlt.
Qed.

Lemma detect_separators_strictly_increasing_witness :
  StronglySorted Qlt (detect_separators [30; 0; 30; 5; 0; 60; 60] 20).
Proof.
  apply (detect_separators_strictly_increasing [30; 0; 30; 5; 0; 60; 60] 20).
  reflexivity.
Defined.

(** ** The scanner of [_parse_separators] *)

Local Open Scope char_scope.

Lemma separator_char_inv (c : ascii) :
  separator_char c = true ->
  is_digit c = false /\ is_sign c = false /\ (c =? ".") = false.
Proof.
  unfold separator_char. rewrite negb_true_iff, !orb_false_iff. tauto.
Qed.

Lemma span_digits_app (ds r : list ascii) :
  forallb is_digit ds = true ->
  hd_error r = None \/ (exists c, hd_error r = Some c /\ is_digit c = false) ->
  span_digits (ds ++ r) = (ds, r).
Proof.
  intros Hds Hr.
  induction ds as [|d ds IH]; cbn [app span_digits forallb] in *.
  - destruct r as [|c r]; [reflexivity|].
    destruct Hr as [Hr|[c' [Hc Hd]]]; [discriminate|].
    simpl in Hc. inversion Hc; subst c'. cbn [span_digits]. now rewrite Hd.
  - apply andb_true_iff in Hds as [Hd Hds]. now rewrite Hd, IH.
Qed.

Lemma span_digits_no_digit (s : list ascii) :
  hd_error s = None \/ (exists c, hd_error s = Some c /\ is_digit c = false) ->
  span_digits s = ([], s).
Proof.
  intros H. now apply (span_digits_app [] s).
Qed.

Lemma match_unsigned_no_digit (s : list ascii) :
  hd_error s = None \/ (exists c, hd_error s = Some c /\ is_digit c = false) ->
  match_unsigned s = None.
Proof.
  intros H. unfold match_unsigned. now rewrite span_digits_no_digit.
Qed.

Lemma findall_separator (sep r : list ascii) :
  forallb separator_char sep = true ->
  findall (sep ++ r) = findall r.
Proof.
  unfold findall. induction sep as [|c sep IH]; [reflexivity|].
  cbn [forallb app]. intros H. apply andb_true_iff in H as [Hc Hsep].
  apply separator_char_inv in Hc as (Hd & Hs & _).
  cbn [findall_skip].
  assert (E : match_number (c :: sep ++ r) = None).
  { unfold match_number. rewrite Hs. apply match_unsigned_no_digit.
    right. exists c. now split. }
  rewrite E. now apply IH.
Qed.

(** ** Commas, separators and texts without digits *)

Lemma replace_comma_app (a b : list ascii) :
  replace_comma (a ++ b) = replace_comma a ++ replace_comma b.
Proof.
  apply map_app.
Qed.

(** ** [float] on the matched texts *)

Lemma float_digit_head (d : ascii) (s : list ascii) :
  is_digit d = true -> float (d :: s) = float_unsigned (d :: s).
Proof.
  destruct d as [[] [] [] [] [] [] [] []]; try discriminate; reflexivity.
Qed.

Lemma float_sign_head (c : ascii) (s : list ascii) :
  is_sign c = true ->
  float (c :: s) =
  if c =? "-" then option_map Qopp (float_unsigned s) else float_unsigned s.
Proof.
  destruct c as [[] [] [] [] [] [] [] []]; try discriminate; reflexivity.
Qed.

Lemma float_unsigned_int (ds : list ascii) :
  forallb is_digit ds = true -> is_nil ds = false ->
  float_unsigned ds = Some (inject_Z (digits_value ds)).
Proof.
  intros Hds Hne. unfold float_unsigned.
  rewrite <- (app_nil_r ds) at 1.
  rewrite span_digits_app; [|assumption|now left].
  destruct ds; [discriminate|reflexivity].
Qed.

Lemma float_unsigned_frac (ds fs : list ascii) :
  forallb is_digit ds = true ->
  forallb is_digit fs = true -> is_nil fs = false ->
  float_unsigned (ds ++ "." :: fs)
  = Some (Qmake (digits_value (ds ++ fs))
                (Z.to_pos (10 ^ Z.of_nat (List.length fs)))).
Proof.
  intros Hds Hfs Hnf. unfold float_unsigned.
  rewrite span_digits_app;
    [|assumption|right; exists "."; split; reflexivity].
  rewrite Hfs.
  destruct fs as [|f fs]; [discriminate|].
  cbn [List.length]. rewrite Nat.add_succ_r. reflexivity.
Qed.

(** What [span_digits] returns: digits, then the rest, which does not
    start with a digit. *)
Lemma span_digits_spec (s : list ascii) :
  forallb is_digit (fst (span_digits s)) = true
  /\ s = fst (span_digits s) ++ snd (span_digits s).
Proof.
  induction s as [|c s [IHd IHs]]; [now split|].
  cbn [span_digits]. destruct (is_digit c) eqn:E; [|now split].
  destruct (span_digits s) as [ds r]. cbn [fst snd forallb app] in *.
  rewrite E, IHd. split; [reflexivity|now f_equal].
Qed.

(** Every text matched by the regular expression is converted by
    [float]. *)
Lemma match_unsigned_float (s u r : list ascii) :
  match_unsigned s = Some (u, r) ->
  (exists q, float_unsigned u = Some q)
  /\ (exists d t, u = d :: t /\ is_digit d = true).
Proof.
  unfold match_unsigned.
  pose proof (span_digits_spec s) as [Hds _].
  destruct (span_digits s) as [ds r0]. cbn [fst] in Hds.
  destruct ds as [|d ds]; [discriminate|].
  assert (Hint : exists q, float_unsigned (d :: ds) = Some q)
    by (eexists; now apply float_unsigned_int).
  assert (Hhead : forall t', exists d0 t, (d :: ds) ++ t' = d0 :: t /\ is_digit d0 = true).
  { intros t'. exists d, (ds ++ t'). split; [reflexivity|].
    cbn [forallb] in Hds. now apply andb_true_iff in Hds as [Hd _]. }
  assert (Hplain : forall r1, Some (d :: ds, r1) = Some (u, r) ->
            (exists q, float_unsigned u = Some q)
            /\ (exists d0 t, u = d0 :: t /\ is_digit d0 = true)).
  { intros r1 E. inversion E; subst. split; [assumption|].
    specialize (Hhead []). now rewrite app_nil_r in Hhead. }
  destruct r0 as [|c r0]; [now apply Hplain|].
  destruct (c =? ".") eqn:Ec.
  - apply Ascii.eqb_eq in Ec. subst c.
    pose proof (span_digits_spec r0) as [Hfs _].
    destruct (span_digits r0) as [fs r1]. cbn [fst] in Hfs.
    destruct fs as [|f fs]; [now apply Hplain|].
    intros E. inversion E; subst. split; [|apply Hhead].
    eexists. now apply (float_unsigned_frac (d :: ds) (f :: fs)).
  - intros E. apply (Hplain (c :: r0)).
    destruct c as [[] [] [] [] [] [] [] []]; try exact E; discriminate.
Qed.

Lemma match_number_float (s tok r : list ascii) :
  match_number s = Some (tok, r) -> exists q, float tok = Some q.
Proof.
  unfold match_number. destruct s as [|c s]; [discriminate|].
  assert (Hplain : match_unsigned (c :: s) = Some (tok, r) ->
                   exists q, float tok = Some q).
  { intros E. apply match_unsigned_float in E as [[q Hq] (d & t & -> & Hd)].
    exists q. now rewrite float_digit_head. }
  destruct (is_sign c) eqn:Hs; [|assumption].
  destruct (match_unsigned s) as [[u r1]|] eqn:Eu; [|assumption].
  intros E. inversion E; subst.
  apply match_unsigned_float in Eu as [[q Hq] _].
  rewrite (float_sign_head c u Hs), Hq.
  destruct (c =? "-"); eexists; reflexivity.
Qed.

Lemma findall_skip_float (s : list ascii) (k : nat) :
  Forall (fun tok => exists q, float tok = Some q) (findall_skip k s).
Proof.
  revert k. induction s as [|c s IH]; intros k; [constructor|].
  cbn [findall_skip]. destruct k as [|k]; [|apply IH].
  destruct (match_number (c :: s)) as [[tok r]|] eqn:E; [|apply IH].
  constructor; [|apply IH]. now apply match_number_float in E.
Qed.

Lemma floats_total (nums : list (list ascii)) :
  Forall (fun tok => exists q, float tok = Some q) nums ->
  exists xs, floats nums = Some xs /\ List.length xs = List.length nums.
Proof.
  induction 1 as [|tok nums [q Hq] _ [xs [Hxs Hlen]]].
  - now exists [].
  - exists (q :: xs). cbn [floats]. rewrite Hq, Hxs.
    split; [reflexivity|]. cbn [List.length]. now rewrite Hlen.
Qed.

Local Close Scope char_scope.

(** ** Claim on the tolerant parser *)

Lemma parse_separators_unfold (s : string) :
  _parse_separators (Some s)
  = match floats (findall (replace_comma (list_ascii_of_string s))) with
    | Some xs => xs
    | None => []
    end.
Proof.
  destruct s; reflexivity.
Qed.

(** ** The parser on code points and doubles *)

Section UnicodeParserFacts.

Variable unicode_decimal : Unicode.codepoint -> option N.

Local Abbreviation is_digit := (Unicode.is_digit unicode_decimal).
Local Abbreviation span_digits := (Unicode.span_digits unicode_decimal).
Local Abbreviation match_unsigned := (Unicode.match_unsigned unicode_decimal).
Local Abbreviation match_number := (Unicode.match_number unicode_decimal).
Local Abbreviation findall_skip := (Unicode.findall_skip unicode_decimal).
Local Abbreviation findall := (Unicode.findall unicode_decimal).
Local Abbreviation decimal_fraction := (Unicode.decimal_fraction unicode_decimal).
Local Abbreviation float_unsigned := (Unicode.float_unsigned unicode_decimal).
Local Abbreviation float := (Unicode.float unicode_decimal).
Local Abbreviation floats := (Unicode.floats unicode_decimal).
Local Abbreviation parse := (Unicode._parse_separators unicode_decimal).
Local Abbreviation wf_numeral := (Unicode.wf_numeral unicode_decimal).
Local Abbreviation numeral_value := (Unicode.numeral_value unicode_decimal).
Local Abbreviation numeral_magnitude := (Unicode.numeral_magnitude unicode_decimal).
Local Abbreviation separator_char := (Unicode.separator_char unicode_decimal).
Local Abbreviation ends_numeral := (Unicode.ends_numeral unicode_decimal).
Local Abbreviation well_separated := (Unicode.well_separated unicode_decimal).
Local Abbreviation is_sign := Unicode.is_sign.
Local Abbreviation is_dot := Unicode.is_dot.
Local Abbreviation replace_comma := Unicode.replace_comma.
Local Abbreviation numeral_text := Unicode.numeral_text.
Local Abbreviation separated_text := Unicode.separated_text.

Local Open Scope N_scope.

Lemma u_sign_not_digit (c : N) : is_sign c = true -> is_digit c = false.
Proof.
  unfold Unicode.is_sign. intros H.
  apply orb_true_iff in H as [H|H]; apply N.eqb_eq in H; now subst c.
Qed.

Lemma u_digit_not_sign (c : N) : is_digit c = true -> is_sign c = false.
Proof.
  intros H. destruct (is_sign c) eqn:E; [|reflexivity].
  apply u_sign_not_digit in E. congruence.
Qed.

Lemma u_digit_not_comma (c : N) : is_digit c = true -> (c =? 44) = false.
Proof.
  intros H. destruct (c =? 44) eqn:E; [|reflexivity].
  apply N.eqb_eq in E. now subst c.
Qed.

Lemma u_separator_char_inv (c : N) :
  separator_char c = true ->
  is_digit c = false /\ is_sign c = false /\ is_dot c = false.
Proof.
  unfold Unicode.separator_char.
  rewrite negb_true_iff, !orb_false_iff. tauto.
Qed.

Lemma u_span_digits_app (ds r : list N) :
  forallb is_digit ds = true ->
  hd_error r = None \/ (exists c, hd_error r = Some c /\ is_digit c = false) ->
  span_digits (ds ++ r) = (ds, r).
Proof.
  intros Hds Hr.
  induction ds as [|d ds IH]; cbn [app Unicode.span_digits forallb] in *.
  - destruct r as [|c r]; [reflexivity|].
    destruct Hr as [Hr|[c' [Hc Hd]]]; [discriminate|].
    simpl in Hc. inversion Hc; subst c'.
    cbn [Unicode.span_digits]. now rewrite Hd.
  - apply andb_true_iff in Hds as [Hd Hds]. now rewrite Hd, IH.
Qed.

Lemma u_span_digits_no_digit (s : list N) :
  hd_error s = None \/ (exists c, hd_error s = Some c /\ is_digit c = false) ->
  span_digits s = ([], s).
Proof.
  intros H. now apply (u_span_digits_app [] s).
Qed.

Lemma u_match_unsigned_no_digit (s : list N) :
  hd_error s = None \/ (exists c, hd_error s = Some c /\ is_digit c = false) ->
  match_unsigned s = None.
Proof.
  intros H. unfold Unicode.match_unsigned.
  now rewrite u_span_digits_no_digit.
Qed.

Lemma u_ends_numeral_no_digit (r : list N) :
  ends_numeral r ->
  hd_error r = None \/ (exists c, hd_error r = Some c /\ is_digit c = false).
Proof.
  intros [H|[c [Hc Hs]]]; [now left|right].
  exists c. split; [assumption|]. now apply u_separator_char_inv in Hs.
Qed.

Lemma u_match_unsigned_int (ds r : list N) :
  forallb is_digit ds = true -> is_nil ds = false -> ends_numeral r ->
  match_unsigned (ds ++ r) = Some (ds, r).
Proof.
  intros Hds Hne Hr. unfold Unicode.match_unsigned.
  rewrite u_span_digits_app by (try apply u_ends_numeral_no_digit; assumption).
  destruct ds as [|d ds]; [discriminate|].
  destruct r as [|c r]; [reflexivity|].
  destruct Hr as [Hr|[c' [Hc Hs]]]; [discriminate|].
  simpl in Hc. inversion Hc; subst c'.
  apply u_separator_char_inv in Hs as (_ & _ & Hdot). now rewrite Hdot.
Qed.

Lemma u_match_unsigned_frac (ds fs r : list N) :
  forallb is_digit ds = true -> is_nil ds = false ->
  forallb is_digit fs = true -> is_nil fs = false ->
  ends_numeral r ->
  match_unsigned (ds ++ 46 :: fs ++ r) = Some (ds ++ 46 :: fs, r).
Proof.
  intros Hds Hne Hfs Hnf Hr. unfold Unicode.match_unsigned.
  rewrite u_span_digits_app;
    [|assumption|right; exists 46; split; reflexivity].
  destruct ds as [|d ds]; [discriminate|].
  change (is_dot 46) with true. cbv iota.
  rewrite u_span_digits_app by (try apply u_ends_numeral_no_digit; assumption).
  destruct fs as [|f fs]; [discriminate|reflexivity].
Qed.

Lemma u_wf_numeral_inv (n : Unicode.numeral) :
  wf_numeral n = true ->
  match Unicode.n_sign n with Some c => is_sign c = true | None => True end
  /\ forallb is_digit (Unicode.n_int n) = true
  /\ is_nil (Unicode.n_int n) = false
  /\ match Unicode.n_frac n with
     | Some fs => forallb is_digit fs = true /\ is_nil fs = false
     | None => True
     end.
Proof.
  unfold Unicode.wf_numeral. intros Hwf.
  apply andb_true_iff in Hwf as [Hwf Hfrac].
  apply andb_true_iff in Hwf as [Hsign Hint].
  apply andb_true_iff in Hint as [Hds Hne]. apply negb_true_iff in Hne.
  repeat split; try assumption.
  - now destruct (Unicode.n_sign n).
  - destruct (Unicode.n_frac n); [|exact I].
    apply andb_true_iff in Hfrac as [Hfs Hnf].
    now apply negb_true_iff in Hnf.
Qed.

Lemma u_match_unsigned_numeral (n : Unicode.numeral) (r : list N) :
  wf_numeral n = true -> ends_numeral r ->
  match_unsigned
    ((Unicode.n_int n
      ++ match Unicode.n_frac n with Some fs => 46 :: fs | None => [] end)
     ++ r)%list
  = Some ((Unicode.n_int n
           ++ match Unicode.n_frac n with Some fs => 46 :: fs | None => [] end)%list,
          r).
Proof.
  intros Hwf Hr. apply u_wf_numeral_inv in Hwf as (_ & Hds & Hne & Hfrac).
  destruct (Unicode.n_frac n) as [fs|].
  - destruct Hfrac as [Hfs Hnf]. rewrite <- app_assoc. cbn [app].
    now apply u_match_unsigned_frac.
  - rewrite app_nil_r. now apply u_match_unsigned_int.
Qed.

Lemma u_match_number_numeral (n : Unicode.numeral) (r : list N) :
  wf_numeral n = true -> ends_numeral r ->
  match_number (numeral_text n ++ r) = Some (numeral_text n, r).
Proof.
  intros Hwf Hr.
  pose proof (u_match_unsigned_numeral n r Hwf Hr) as Hu.
  apply u_wf_numeral_inv in Hwf as (Hsign & Hds & Hne & _).
  unfold Unicode.numeral_text.
  destruct (Unicode.n_sign n) as [c|]; cbn [app].
  - unfold Unicode.match_number. now rewrite Hsign, Hu.
  - destruct (Unicode.n_int n) as [|d ds] eqn:E; [discriminate|].
    cbn [forallb] in Hds. apply andb_true_iff in Hds as [Hd _].
    cbn [app] in *. unfold Unicode.match_number.
    rewrite (u_digit_not_sign d Hd). exact Hu.
Qed.

Lemma u_findall_skip_app (p r : list N) :
  findall_skip (List.length p) (p ++ r) = findall_skip 0 r.
Proof.
  induction p as [|c p IH]; [|exact IH].
  destruct r; reflexivity.
Qed.

Lemma u_findall_separator (sep r : list N) :
  forallb separator_char sep = true ->
  findall (sep ++ r) = findall r.
Proof.
  unfold Unicode.findall. induction sep as [|c sep IH]; [reflexivity|].
  cbn [forallb app]. intros H. apply andb_true_iff in H as [Hc Hsep].
  apply u_separator_char_inv in Hc as (Hd & Hs & _).
  cbn [Unicode.findall_skip].
  assert (E : match_number (c :: sep ++ r) = None).
  { unfold Unicode.match_number. rewrite Hs.
    apply u_match_unsigned_no_digit. right. exists c. now split. }
  rewrite E. now apply IH.
Qed.

Lemma u_numeral_text_cons (n : Unicode.numeral) :
  wf_numeral n = true -> exists c t, numeral_text n = c :: t.
Proof.
  intros Hwf. apply u_wf_numeral_inv in Hwf as (_ & _ & Hne & _).
  unfold Unicode.numeral_text.
  destruct (Unicode.n_sign n) as [c|]; [now eexists; eexists|].
  destruct (Unicode.n_int n) as [|d ds]; [discriminate|now eexists; eexists].
Qed.

Lemma u_findall_numeral (n : Unicode.numeral) (r : list N) :
  wf_numeral n = true -> ends_numeral r ->
  findall (numeral_text n ++ r) = numeral_text n :: findall r.
Proof.
  intros Hwf Hr. unfold Unicode.findall.
  pose proof (u_match_number_numeral n r Hwf Hr) as Hm.
  destruct (u_numeral_text_cons n Hwf) as (c & t & E).
  rewrite E in *. cbn [app Unicode.findall_skip] in *. rewrite Hm.
  f_equal. cbn [List.length]. rewrite Nat.sub_succ, Nat.sub_0_r.
  apply u_findall_skip_app.
Qed.

Lemma u_replace_comma_app (a b : list N) :
  replace_comma (a ++ b) = (replace_comma a ++ replace_comma b)%list.
Proof.
  apply map_app.
Qed.

Lemma u_replace_comma_digits (ds : list N) :
  forallb is_digit ds = true -> replace_comma ds = ds.
Proof.
  induction ds as [|d ds IH]; [reflexivity|].
  cbn [forallb]. intros H. apply andb_true_iff in H as [Hd Hds].
  unfold Unicode.replace_comma in *. cbn [map].
  now rewrite (IH Hds), (u_digit_not_comma d Hd).
Qed.

Lemma u_replace_comma_numeral (n : Unicode.numeral) :
  wf_numeral n = true -> replace_comma (numeral_text n) = numeral_text n.
Proof.
  intros Hwf. apply u_wf_numeral_inv in Hwf as (Hsign & Hds & _ & Hfrac).
  unfold Unicode.numeral_text. rewrite !u_replace_comma_app.
  f_equal; [|f_equal].
  - destruct (Unicode.n_sign n) as [c|]; [|reflexivity].
    unfold Unicode.is_sign in Hsign.
    apply orb_true_iff in Hsign as [H|H]; apply N.eqb_eq in H; now subst c.
  - now apply u_replace_comma_digits.
  - destruct (Unicode.n_frac n) as [fs|]; [|reflexivity].
    destruct Hfrac as [Hfs _].
    change (replace_comma (46 :: fs)) with (46 :: replace_comma fs).
    now rewrite u_replace_comma_digits.
Qed.

Lemma u_replace_comma_separator (sep : list N) :
  forallb separator_char sep = true ->
  forallb separator_char (replace_comma sep) = true.
Proof.
  induction sep as [|c sep IH]; [reflexivity|].
  cbn [forallb Unicode.replace_comma map]. intros H.
  apply andb_true_iff in H as [Hc Hsep].
  apply andb_true_iff. split; [|now apply IH].
  destruct (c =? 44); [reflexivity|assumption].
Qed.

Lemma u_ends_numeral_separator (sep r : list N) :
  forallb separator_char sep = true ->
  negb (is_nil sep) || is_nil r = true ->
  ends_numeral (sep ++ r).
Proof.
  intros Hsep Hne. destruct sep as [|c sep]; simpl in Hne.
  - destruct r; [now left|discriminate].
  - right. exists c. split; [reflexivity|].
    cbn [forallb] in Hsep. now apply andb_true_iff in Hsep as [Hc _].
Qed.

Lemma u_findall_separated_text (items : list (Unicode.numeral * list N)) :
  well_separated items = true ->
  findall (replace_comma (separated_text items))
  = map (fun item => numeral_text (fst item)) items.
Proof.
  induction items as [|[n sep] rest IH]; [reflexivity|].
  cbn [Unicode.well_separated Unicode.separated_text map fst]. intros H.
  apply andb_true_iff in H as [H Hrest].
  apply andb_true_iff in H as [H Hne].
  apply andb_true_iff in H as [Hwf Hsep].
  rewrite !u_replace_comma_app.
  rewrite (u_replace_comma_numeral n Hwf).
  rewrite u_findall_numeral; [|assumption|].
  - rewrite u_findall_separator by now apply u_replace_comma_separator.
    now rewrite IH.
  - apply u_ends_numeral_separator; [now apply u_replace_comma_separator|].
    destruct sep; [|reflexivity].
    destruct rest; [reflexivity|discriminate].
Qed.

Lemma u_findall_skip_no_digit (s : list N) :
  forallb (fun c => negb (is_digit c)) s = true ->
  forall k, findall_skip k s = [].
Proof.
  induction s as [|c s IH]; [reflexivity|].
  cbn [forallb]. intros H k. apply andb_true_iff in H as [Hc Hs].
  apply negb_true_iff in Hc.
  destruct k as [|k]; cbn [Unicode.findall_skip]; [|now apply IH].
  assert (Hu : match_unsigned (c :: s) = None).
  { apply u_match_unsigned_no_digit. right. exists c. now split. }
  assert (E : match_number (c :: s) = None).
  { unfold Unicode.match_number. rewrite Hu.
    destruct (is_sign c); [|reflexivity].
    rewrite u_match_unsigned_no_digit; [reflexivity|].
    destruct s as [|c' s']; [now left|right].
    exists c'. split; [reflexivity|].
    cbn [forallb] in Hs. apply andb_true_iff in Hs as [Hc' _].
    now apply negb_true_iff in Hc'. }
  rewrite E. now apply IH.
Qed.

Lemma u_replace_comma_no_digit (s : list N) :
  forallb (fun c => negb (is_digit c)) s = true ->
  forallb (fun c => negb (is_digit c)) (replace_comma s) = true.
Proof.
  induction s as [|c s IH]; [reflexivity|].
  cbn [forallb Unicode.replace_comma map]. intros H.
  apply andb_true_iff in H as [Hc Hs].
  apply andb_true_iff. split; [|now apply IH].
  destruct (c =? 44); [reflexivity|assumption].
Qed.

Lemma u_float_digit_head (d : N) (s : list N) :
  is_digit d = true -> float (d :: s) = float_unsigned (d :: s).
Proof.
  intros Hd. unfold Unicode.float.
  pose proof (u_digit_not_sign d Hd) as Hs. unfold Unicode.is_sign in Hs.
  apply orb_false_iff in Hs as [H1 H2]. now rewrite H1, H2.
Qed.

Lemma u_float_sign_head (c : N) (s : list N) :
  is_sign c = true ->
  float (c :: s)
  = if c =? 45 then option_map Binary64.opp (float_unsigned s)
    else float_unsigned s.
Proof.
  unfold Unicode.is_sign, Unicode.float. intros H.
  apply orb_true_iff in H as [H|H]; apply N.eqb_eq in H; now subst c.
Qed.

Lemma u_float_unsigned_int (ds : list N) :
  forallb is_digit ds = true -> is_nil ds = false ->
  float_unsigned ds = Some (Binary64.of_Q (decimal_fraction ds [])).
Proof.
  intros Hds Hne. unfold Unicode.float_unsigned.
  rewrite <- (app_nil_r ds) at 1.
  rewrite u_span_digits_app; [|assumption|now left].
  destruct ds; [discriminate|reflexivity].
Qed.

Lemma u_float_unsigned_frac (ds fs : list N) :
  forallb is_digit ds = true ->
  forallb is_digit fs = true -> is_nil fs = false ->
  float_unsigned (ds ++ 46 :: fs)
  = Some (Binary64.of_Q (decimal_fraction ds fs)).
Proof.
  intros Hds Hfs Hnf. unfold Unicode.float_unsigned.
  rewrite u_span_digits_app;
    [|assumption|right; exists 46; split; reflexivity].
  change (is_dot 46) with true. rewrite Hfs.
  destruct fs as [|f fs]; [discriminate|].
  cbn [List.length]. rewrite Nat.add_succ_r. reflexivity.
Qed.

Lemma u_float_numeral (n : Unicode.numeral) :
  wf_numeral n = true -> float (numeral_text n) = Some (numeral_value n).
Proof.
  intros Hwf. apply u_wf_numeral_inv in Hwf as (Hsign & Hds & Hne & Hfrac).
  unfold Unicode.numeral_text, Unicode.numeral_value,
    Unicode.numeral_magnitude.
  assert (Hu : float_unsigned
                 (Unicode.n_int n
                  ++ match Unicode.n_frac n with
                     | Some fs => 46 :: fs
                     | None => []
                     end)%list
               = Some (Binary64.of_Q
                         (decimal_fraction (Unicode.n_int n)
                            match Unicode.n_frac n with
                            | Some fs => fs
                            | None => []
                            end))).
  { destruct (Unicode.n_frac n) as [fs|].
    - destruct Hfrac as [Hfs Hnf]. now apply u_float_unsigned_frac.
    - rewrite app_nil_r. now apply u_float_unsigned_int. }
  destruct (Unicode.n_sign n) as [c|]; cbn [app].
  - rewrite (u_float_sign_head c _ Hsign), Hu.
    unfold Unicode.is_sign in Hsign.
    apply orb_true_iff in Hsign as [H|H]; apply N.eqb_eq in H; now subst c.
  - destruct (Unicode.n_int n) as [|d ds]; [discriminate|].
    cbn [forallb] in Hds. apply andb_true_iff in Hds as [Hd _].
    cbn [app] in *. now rewrite u_float_digit_head.
Qed.

Lemma u_floats_numerals (items : list (Unicode.numeral * list N)) :
  well_separated items = true ->
  floats (map (fun item => numeral_text (fst item)) items)
  = Some (map (fun item => numeral_value (fst item)) items).
Proof.
  induction items as [|[n sep] rest IH]; [reflexivity|].
  cbn [Unicode.well_separated map fst Unicode.floats]. intros H.
  apply andb_true_iff in H as [H Hrest].
  apply andb_true_iff in H as [H _].
  apply andb_true_iff in H as [Hwf _].
  now rewrite (u_float_numeral n Hwf), (IH Hrest).
Qed.

Lemma u_span_digits_digits (s : list N) :
  forallb is_digit (fst (span_digits s)) = true.
Proof.
  induction s as [|c s IH]; [reflexivity|].
  cbn [Unicode.span_digits]. destruct (is_digit c) eqn:E; [|reflexivity].
  destruct (span_digits s) as [ds r]. cbn [fst forallb] in *.
  now rewrite E, IH.
Qed.

Lemma u_match_unsigned_float (s u r : list N) :
  match_unsigned s = Some (u, r) ->
  (exists q, float_unsigned u = Some q)
  /\ (exists d t, u = d :: t /\ is_digit d = true).
Proof.
  unfold Unicode.match_unsigned.
  pose proof (u_span_digits_digits s) as Hds.
  destruct (span_digits s) as [ds r0]. cbn [fst] in Hds.
  destruct ds as [|d ds]; [discriminate|].
  assert (Hd : is_digit d = true)
    by (cbn [forallb] in Hds; now apply andb_true_iff in Hds as [Hd _]).
  assert (Hplain : forall r1, Some (d :: ds, r1) = Some (u, r) ->
            (exists q, float_unsigned u = Some q)
            /\ (exists d0 t, u = d0 :: t /\ is_digit d0 = true)).
  { intros r1 E. inversion E; subst. split.
    - eexists. now apply u_float_unsigned_int.
    - now exists d, ds. }
  destruct r0 as [|c r0]; [now apply Hplain|].
  destruct (is_dot c) eqn:Ec; [|now apply Hplain].
  apply N.eqb_eq in Ec. subst c.
  pose proof (u_span_digits_digits r0) as Hfs.
  destruct (span_digits r0) as [fs r1]. cbn [fst] in Hfs.
  destruct fs as [|f fs]; [now apply Hplain|].
  intros E. inversion E; subst. split.
  - eexists. now apply (u_float_unsigned_frac (d :: ds) (f :: fs)).
  - now exists d, (ds ++ 46 :: f :: fs)%list.
Qed.

Lemma u_match_number_float (s tok r : list N) :
  match_number s = Some (tok, r) -> exists q, float tok = Some q.
Proof.
  unfold Unicode.match_number. destruct s as [|c s]; [discriminate|].
  assert (Hplain : match_unsigned (c :: s) = Some (tok, r) ->
                   exists q, float tok = Some q).
  { intros E. apply u_match_unsigned_float in E as [[q Hq] (d & t & -> & Hd)].
    exists q. now rewrite u_float_digit_head. }
  destruct (is_sign c) eqn:Hs; [|assumption].
  destruct (match_unsigned s) as [[u r1]|] eqn:Eu; [|assumption].
  intros E. inversion E; subst.
  apply u_match_unsigned_float in Eu as [[q Hq] _].
  pose proof (u_float_sign_head c u Hs) as Hf. rewrite Hq in Hf.
  destruct (c =? 45); eexists; exact Hf.
Qed.

Lemma u_findall_skip_float (s : list N) (k : nat) :
  Forall (fun tok => exists q, float tok = Some q) (findall_skip k s).
Proof.
  revert k. induction s as [|c s IH]; intros k; [constructor|].
  cbn [Unicode.findall_skip]. destruct k as [|k]; [|apply IH].
  destruct (match_number (c :: s)) as [[tok r]|] eqn:E; [|apply IH].
  constructor; [|apply IH]. now apply u_match_number_float in E.
Qed.

Lemma u_floats_total (nums : list (list N)) :
  Forall (fun tok => exists q, float tok = Some q) nums ->
  exists xs, floats nums = Some xs /\ List.length xs = List.length nums.
Proof.
  induction 1 as [|tok nums [q Hq] _ [xs [Hxs Hlen]]].
  - now exists [].
  - exists (q :: xs). cbn [Unicode.floats]. rewrite Hq, Hxs.
    split; [reflexivity|]. cbn [List.length]. now rewrite Hlen.
Qed.

Lemma u_parse_unfold (s : list N) :
  parse (Some s)
  = match floats (findall (replace_comma s)) with
    | Some xs => xs
    | None => []
    end.
Proof.
  destruct s; reflexivity.
Qed.


End UnicodeParserFacts.



(** ** The graph handler *)

Local Open Scope string_scope.

Lemma draw_separators_x (color : string) (i : nat) (xs : list Q) :
  map vl_x (draw_separators color i xs) = xs.
Proof.
  revert i. induction xs as [|x xs IH]; intros i; [reflexivity|].
  cbn [draw_separators map vl_x]. now rewrite IH.
Qed.

(** Every call of the detector by the handler carries the submitted
    threshold, or 20 when none was submitted. *)
Lemma csv_to_graph_threshold (plt : Figure -> option string) (form : GraphForm) :
  forall thr,
    In (ev_detect_separators thr) (fst (csv_to_graph plt form)) ->
    thr = Form 20 (auto_gap_threshold form).
Proof.
  intros thr. unfold csv_to_graph.
  destruct (endswith (filename (file form)) ".csv"); run_handler;
    [|not_in_log].
  destruct (read_csv_result (file form)) as [msg|df]; run_handler;
    [not_in_log|].
  destruct (issubset ["time"; "flux"] (columns df)); run_handler;
    [|not_in_log].
  destruct (sort_values_by "time" df) as [df'|]; run_handler;
    [|not_in_log].
  destruct (_parse_separators (separators form)) as [|x xs]; run_handler.
  - destruct (get_column "time" df') as [times|]; run_handler;
      [|not_in_log].
    destruct (get_column "flux" df') as [flux|]; run_handler.
    + destruct (plt _); run_handler;
        (intros [H|[H|H]]; [discriminate H | now inversion H | revert H; not_in_log]).
    + intros [H|[H|H]]; [discriminate H | now inversion H | revert H; not_in_log].
  - destruct (get_column "time" df') as [times|]; run_handler;
      [|not_in_log].
    destruct (get_column "flux" df') as [flux|]; run_handler;
      [|not_in_log].
    destruct (plt _); run_handler; not_in_log.
Qed.

(** The detector is called only when the separator text gave no number,
    and when it gave some they are the positions drawn. *)
Lemma csv_to_graph_separators (plt : Figure -> option string) (form : GraphForm) :
  (detector_called (fst (csv_to_graph plt form)) ->
   _parse_separators (separators form) = [])
  /\ (forall resp,
         snd (csv_to_graph plt form) = inr resp ->
         _parse_separators (separators form) <> [] ->
         map vl_x (fig_vlines (content resp))
         = _parse_separators (separators form)).
Proof.
  unfold csv_to_graph, detector_called.
  destruct (endswith (filename (file form)) ".csv"); run_handler;
    [|split; [intros [thr H]; revert H; not_in_log | discriminate]].
  destruct (read_csv_result (file form)) as [msg|df]; run_handler;
    [split; [intros [thr H]; revert H; not_in_log | discriminate]|].
  destruct (issubset ["time"; "flux"] (columns df)); run_handler;
    [|split; [intros [thr H]; revert H; not_in_log | discriminate]].
  destruct (sort_values_by "time" df) as [df'|]; run_handler;
    [|split; [intros [thr H]; revert H; not_in_log | discriminate]].
  destruct (_parse_separators (separators form)) as [|x xs]; run_handler.
  - split; [reflexivity | intros resp _ H; now elim H].
  - destruct (get_column "time" df') as [times|]; run_handler;
      [|split; [intros [thr H]; revert H; not_in_log | discriminate]].
    destruct (get_column "flux" df') as [flux|]; run_handler;
      [|split; [intros [thr H]; revert H; not_in_log | discriminate]].
    destruct (plt _); run_handler;
      (split; [intros [thr H]; revert H; not_in_log|]);
      [discriminate|].
    intros resp H _. inversion H; subst resp.
    exact (draw_separators_x _ 1%nat (x :: xs)).
Qed.

(** ** Claims on the graph handler *)

(** C4, as stated, fails: with the separator text ["abc"], which holds no
    number, the handler does not draw the (empty) list of parsed numbers
    but calls the detector and draws the boundary it finds, 30. *)
Lemma csv_to_graph_text_without_numbers :
  separators (sample_form (Some "abc") None) = Some "abc"
  /\ _parse_separators (Some "abc") = []
  /\ (exists resp,
         snd (csv_to_graph plt_ok (sample_form (Some "abc") None)) = inr resp
         /\ map vl_x (fig_vlines (content resp)) = [30]
         /\ map vl_x (fig_vlines (content resp))
            <> _parse_separators (Some "abc"))
  /\ detector_called (fst (csv_to_graph plt_ok (sample_form (Some "abc") None))).
Proof.
  split; [reflexivity|]. split; [reflexivity|]. split.
  - eexists. split; [reflexivity|]. split; [reflexivity|discriminate].
  - exists 20. right. left. reflexivity.
Qed.

(** C4, amended.  Whenever the separator text holds at least one number,
    the parsed numbers are the positions drawn, in the order found and
    without sorting, and the detector is not called; the detector is
    called only when parsing gave no number. *)
Theorem csv_to_graph_manual_separators :
  forall (plt : Figure -> option string) (form : GraphForm),
    (forall resp,
        snd (csv_to_graph plt form) = inr resp ->
        _parse_separators (separators form) <> [] ->
        map vl_x (fig_vlines (content resp))
        = _parse_separators (separators form))
    /\ (_parse_separators (separators form) <> [] ->
        ~ detector_called (fst (csv_to_graph plt form)))
    /\ (detector_called (fst (csv_to_graph plt form)) ->
        _parse_separators (separators form) = []).
Proof.
  intros plt form.
  destruct (csv_to_graph_separators plt form) as [Hcalled Hdrawn].
  split; [exact Hdrawn|]. split; [|exact Hcalled].
  intros Hne Hc. now apply Hne, Hcalled.
Qed.

Lemma csv_to_graph_manual_separators_witness :
  exists resp,
    snd (csv_to_graph plt_ok (sample_form (Some "35, 5 30") None)) = inr resp
    /\ map vl_x (fig_vlines (content resp)) = [35; 5; 30].
Proof.
  eexists. split; [reflexivity|].
  apply (proj1 (csv_to_graph_manual_separators
                  plt_ok (sample_form (Some "35, 5 30") None)));
    [reflexivity|discriminate].
Defined.

(** C8, as stated, fails: a request that submits the threshold -1 has the
    detector called with -1, which is not positive. *)
Lemma csv_to_graph_negative_threshold :
  In (ev_detect_separators (-1))
     (fst (csv_to_graph plt_ok (sample_form None (Some (-1)))))
  /\ ~ 0 < -1.
Proof.
  split; [right; left; reflexivity|]. intros H. discriminate H.
Qed.

(** C8, amended.  The detector is called with the threshold the request
    submitted, unchanged, and with 20 when the request submitted none;
    so the threshold used is positive whenever the submitted one is. *)
Theorem csv_to_graph_threshold_as_submitted :
  forall (plt : Figure -> option string) (form : GraphForm) (thr : Q),
    In (ev_detect_separators thr) (fst (csv_to_graph plt form)) ->
    thr = Form 20 (auto_gap_threshold form)
    /\ (auto_gap_threshold form = None -> thr = 20)
    /\ (forall t, auto_gap_threshold form = Some t -> thr = t)
    /\ (match auto_gap_threshold form with
        | Some t => 0 < t
        | None => True
        end -> 0 < thr).
Proof.
  intros plt form thr H.
  apply csv_to_graph_threshold in H. subst thr.
  destruct (auto_gap_threshold form) as [t|]; cbn [Form].
  - repeat split; [discriminate | now intros t' [= <-] | tauto].
  - repeat split; discriminate.
Qed.

Lemma csv_to_graph_threshold_as_submitted_witness :
  In (ev_detect_separators 20)
     (fst (csv_to_graph plt_ok (sample_form None None)))
  /\ 20 = Form 20 (auto_gap_threshold (sample_form None None)).
Proof.
  split; [right; left; reflexivity|].
  apply (fun H => proj1 (csv_to_graph_threshold_as_submitted
                           plt_ok (sample_form None None) 20 H)).
  right. left. reflexivity.
Defined.

(** ** Columns and messages *)

Lemma existsb_eqb_In (c : string) (cols : list string) :
  existsb (String.eqb c) cols = true <-> In c cols.
Proof.
  rewrite existsb_exists. split.
  - intros [x [Hx E]]. apply String.eqb_eq in E. now subst.
  - intros H. exists c. split; [assumption|apply String.eqb_refl].
Qed.

Lemma has_column_In {A} (c : string) (df : DataFrame A) :
  has_column c df = true <-> In c (columns df).
Proof.
  apply existsb_eqb_In.
Qed.

Lemma issubset_false (required cols : list string) :
  issubset required cols = false <->
  exists c, In c required /\ ~ In c cols.
Proof.
  unfold issubset. split.
  - intros H. induction required as [|r required IH]; [discriminate|].
    cbn [forallb] in H. apply andb_false_iff in H as [H|H].
    + exists r. split; [now left|]. rewrite <- existsb_eqb_In. now rewrite H.
    + destruct (IH H) as [c [Hc Hn]]. exists c. split; [now right|assumption].
  - intros [c [Hc Hn]]. apply not_true_iff_false. intros H.
    rewrite forallb_forall in H. apply Hn, existsb_eqb_In, H, Hc.
Qed.

Lemma string_app_assoc (a b c : string) : (a ++ b) ++ c = a ++ b ++ c.
Proof.
  induction a as [|x a IH]; [reflexivity|]. cbn. now rewrite IH.
Qed.

Lemma names_join (prefix c : string) (l : list string) :
  In c l -> names (prefix ++ join ", " l) c.
Proof.
  revert prefix. induction l as [|x l IH]; intros prefix H; [destruct H|].
  destruct H as [->|H].
  - destruct l as [|y l].
    + exists prefix, "". cbn [join].
      f_equal. clear. induction c as [|a c IH]; [reflexivity|]. cbn. now f_equal.
    + exists prefix, (", " ++ join ", " (y :: l)). reflexivity.
  - destruct l as [|y l]; [destruct H|].
    change (join ", " (x :: y :: l)) with (x ++ ", " ++ join ", " (y :: l)).
    replace (prefix ++ x ++ ", " ++ join ", " (y :: l))
      with ((prefix ++ x ++ ", ") ++ join ", " (y :: l))
      by now rewrite !string_app_assoc.
    now apply IH.
Qed.

Lemma missing_columns {A} (c : string) (feats : list string) (df : DataFrame A) :
  In c (filter (fun c => negb (has_column c df)) feats) <->
  In c feats /\ ~ In c (columns df).
Proof.
  rewrite filter_In, negb_true_iff, <- has_column_In, not_true_iff_false.
  reflexivity.
Qed.

(** ** Client errors of the two handlers *)

Lemma names_time_flux (c : string) :
  In c ["time"; "flux"] ->
  names "El CSV debe contener las columnas 'time' y 'flux'." c.
Proof.
  intros [<-|[<-|[]]].
  - now exists "El CSV debe contener las columnas '", "' y 'flux'.".
  - now exists "El CSV debe contener las columnas 'time' y '", "'.".
Qed.

Lemma csv_to_graph_client_errors (plt : Figure -> option string) (form : GraphForm) :
  (endswith (filename (file form)) ".csv" = false ->
   snd (csv_to_graph plt form)
   = inl (HTTPException 400 "El archivo debe ser un CSV.")
   /\ no_output (fst (csv_to_graph plt form)))
  /\ (forall df,
         endswith (filename (file form)) ".csv" = true ->
         read_csv_result (file form) = inr df ->
         (exists c, In c ["time"; "flux"] /\ ~ In c (columns df)) ->
         exists detail,
           snd (csv_to_graph plt form) = inl (HTTPException 400 detail)
           /\ (forall c, In c ["time"; "flux"] -> ~ In c (columns df) ->
                         names detail c)
           /\ no_output (fst (csv_to_graph plt form)))
  /\ (client_error (snd (csv_to_graph plt form)) ->
      endswith (filename (file form)) ".csv" = false
      \/ (exists df,
             read_csv_result (file form) = inr df
             /\ exists c, In c ["time"; "flux"] /\ ~ In c (columns df))).
Proof.
  unfold csv_to_graph.
  destruct (endswith (filename (file form)) ".csv"); run_handler.
  2:{ split; [now split|]. split; [discriminate|now left]. }
  split; [discriminate|].
  destruct (read_csv_result (file form)) as [msg|df]; run_handler.
  { split; [discriminate|]. cbn [client_error]. lia. }
  destruct (issubset ["time"; "flux"] (columns df)) eqn:Ecols; run_handler.
  2:{ apply issubset_false in Ecols. split.
      - intros df' _ [= <-] _. eexists. split; [reflexivity|].
        split; [|reflexivity]. intros c Hc _. now apply names_time_flux.
      - intros _. right. now exists df. }
  split.
  { intros df' _ [= <-] Hmiss. apply issubset_false in Hmiss. congruence. }
  destruct (sort_values_by "time" df) as [df'|]; run_handler;
    [|cbn [client_error]; lia].
  destruct (_parse_separators (separators form)) as [|x xs]; run_handler;
    (destruct (get_column "time" df') as [times|]; run_handler;
       [|cbn [client_error]; lia]);
    (destruct (get_column "flux" df') as [flux|]; run_handler;
       [|cbn [client_error]; lia]);
    (destruct (plt _); run_handler; cbn [client_error]; [lia|tauto]).
Qed.

Lemma predict_from_csv_client_errors (model : Pipeline) (file : UploadFile cell) :
  (endswith (filename file) ".csv" = false ->
   snd (predict_from_csv model file)
   = inl (HTTPException 400 "El archivo debe ser un CSV.")
   /\ no_output (fst (predict_from_csv model file)))
  /\ (forall df feats,
         endswith (filename file) ".csv" = true ->
         read_csv_result file = inr df ->
         imputer_feature_names_in_ model = Some feats ->
         (exists c, In c feats /\ ~ In c (columns df)) ->
         exists detail,
           snd (predict_from_csv model file) = inl (HTTPException 400 detail)
           /\ (forall c, In c feats -> ~ In c (columns df) -> names detail c)
           /\ no_output (fst (predict_from_csv model file)))
  /\ (client_error (snd (predict_from_csv model file)) ->
      endswith (filename file) ".csv" = false
      \/ (exists df feats,
             read_csv_result file = inr df
             /\ imputer_feature_names_in_ model = Some feats
             /\ exists c, In c feats /\ ~ In c (columns df))).
Proof.
  unfold predict_from_csv.
  destruct (endswith (filename file) ".csv"); run_handler.
  2:{ split; [now split|]. split; [discriminate|now left]. }
  split; [discriminate|].
  destruct (read_csv_result file) as [msg|df]; run_handler.
  { split; [discriminate|]. cbn [client_error]. lia. }
  destruct (imputer_feature_names_in_ model) as [feats|]; run_handler.
  2:{ split; [discriminate|]. cbn [client_error]. lia. }
  destruct (filter (fun c => negb (has_column c df)) feats)
    as [|m missing] eqn:Emiss; run_handler.
  - split.
    { intros df' feats' _ [= <-] [= <-] [c Hc].
      apply missing_columns in Hc. rewrite Emiss in Hc. destruct Hc. }
    destruct (select_columns feats df) as [X|]; run_handler;
      [|cbn [client_error]; lia].
    destruct (predict_proba_1 model X) as [msg|probs]; run_handler;
      [cbn [client_error]; lia|].
    destruct (predict model X) as [msg|labels]; run_handler;
      [cbn [client_error]; lia|].
    destruct (set_column "prob_confirme_planeta" (map Num probs) df)
      as [df1|]; run_handler; [|cbn [client_error]; lia].
    destruct (set_column "prediccion" labels df1) as [df2|]; run_handler;
      cbn [client_error]; [tauto|lia].
  - split.
    + intros df' feats' _ [= <-] [= <-] _. eexists. split; [reflexivity|].
      split; [|reflexivity].
      intros c Hc Hn. apply names_join. rewrite <- Emiss.
      now apply missing_columns.
    + intros _. right. exists df, feats. repeat split.
      exists m. apply missing_columns. rewrite Emiss. now left.
Qed.

(** C6.  On both endpoints an upload whose name does not end in [.csv]
    is answered 400, and so is a parsed CSV that lacks a required column
    ([time] or [flux] on the graph path; on the prediction path a column
    the pipeline declares, the sixteen of [FEATURE_COLS] when it declares
    those), with a message that names every missing column; no other
    request is answered with a 4xx status by the handlers; and in both
    cases no temporary file, image or CSV has been written. *)
Theorem handlers_client_errors :
  (forall (plt : Figure -> option string) (form : GraphForm),
      (endswith (filename (file form)) ".csv" = false ->
       snd (csv_to_graph plt form)
       = inl (HTTPException 400 "El archivo debe ser un CSV.")
       /\ no_output (fst (csv_to_graph plt form)))
      /\ (forall df,
             endswith (filename (file form)) ".csv" = true ->
             read_csv_result (file form) = inr df ->
             (exists c, In c ["time"; "flux"] /\ ~ In c (columns df)) ->
             exists detail,
               snd (csv_to_graph plt form) = inl (HTTPException 400 detail)
               /\ (forall c, In c ["time"; "flux"] -> ~ In c (columns df) ->
                             names detail c)
               /\ no_output (fst (csv_to_graph plt form)))
      /\ (client_error (snd (csv_to_graph plt form)) ->
          endswith (filename (file form)) ".csv" = false
          \/ (exists df,
                 read_csv_result (file form) = inr df
                 /\ exists c, In c ["time"; "flux"] /\ ~ In c (columns df))))
  /\ (forall (model : Pipeline) (file : UploadFile cell),
         (endswith (filename file) ".csv" = false ->
          snd (predict_from_csv model file)
          = inl (HTTPException 400 "El archivo debe ser un CSV.")
          /\ no_output (fst (predict_from_csv model file)))
         /\ (forall df feats,
                endswith (filename file) ".csv" = true ->
                read_csv_result file = inr df ->
                imputer_feature_names_in_ model = Some feats ->
                (exists c, In c feats /\ ~ In c (columns df)) ->
                exists detail,
                  snd (predict_from_csv model file)
                  = inl (HTTPException 400 detail)
                  /\ (forall c, In c feats -> ~ In c (columns df) ->
                                names detail c)
                  /\ no_output (fst (predict_from_csv model file)))
         /\ (client_error (snd (predict_from_csv model file)) ->
             endswith (filename file) ".csv" = false
             \/ (exists df feats,
                    read_csv_result file = inr df
                    /\ imputer_feature_names_in_ model = Some feats
                    /\ exists c, In c feats /\ ~ In c (columns df))))
  /\ List.length FEATURE_COLS = 16%nat.
Proof.
  split; [exact csv_to_graph_client_errors|].
  split; [exact predict_from_csv_client_errors|reflexivity].
Qed.

Lemma handlers_client_errors_witness :
  snd (csv_to_graph plt_ok
         (bare_form {| filename := "lightcurve.txt";
                       read_csv_result := inr [("time", [0]); ("flux", [1])] |}))
  = inl (HTTPException 400 "El archivo debe ser un CSV.")
  /\ (exists detail,
         snd (csv_to_graph plt_ok
                (bare_form {| filename := "lightcurve.csv";
                              read_csv_result :=
                                inr [("time", [0]); ("brightness", [1])] |}))
         = inl (HTTPException 400 detail)
         /\ names detail "flux")
  /\ snd (predict_from_csv sample_model
            {| filename := "candidates.xlsx"; read_csv_result := inr [] |})
     = inl (HTTPException 400 "El archivo debe ser un CSV.")
  /\ (exists detail,
         snd (predict_from_csv sample_model
                {| filename := "candidates.csv";
                   read_csv_result :=
                     inr (map (fun c => (c, [Num 1]))
                              (removelast FEATURE_COLS)) |})
         = inl (HTTPException 400 detail)
         /\ names detail "koi_srad").
Proof.
  pose proof handlers_client_errors as [Hgraph [Hpredict _]].
  split; [|split; [|split]].
  - apply (proj1 (Hgraph plt_ok _)). reflexivity.
  - destruct (proj1 (proj2 (Hgraph plt_ok
                (bare_form {| filename := "lightcurve.csv";
                              read_csv_result :=
                                inr [("time", [0]); ("brightness", [1])] |})))
                _ eq_refl eq_refl) as (detail & Hd & Hn & _).
    + exists "flux". split; [right; left; reflexivity|].
      intros [H|[H|[]]]; discriminate H.
    + exists detail. split; [exact Hd|]. apply Hn.
      * right. left. reflexivity.
      * intros [H|[H|[]]]; discriminate H.
  - apply (proj1 (Hpredict sample_model _)). reflexivity.
  - assert (Hmiss : ~ In "koi_srad"
                      (columns (map (fun c => (c, [Num 1]))
                                    (removelast FEATURE_COLS)))).
    { intros H. cbn in H.
      repeat (destruct H as [H|H]; [discriminate H|]). destruct H. }
    destruct (proj1 (proj2 (Hpredict sample_model
                {| filename := "candidates.csv";
                   read_csv_result :=
                     inr (map (fun c => (c, [Num 1]))
                              (removelast FEATURE_COLS)) |}))
                _ _ eq_refl eq_refl eq_refl) as (detail & Hd & Hn & _).
    + exists "koi_srad". split; [|exact Hmiss].
      cbn. tauto.
    + exists detail. split; [exact Hd|]. apply Hn; [cbn; tauto|exact Hmiss].
Defined.

(** ** Column assignment *)

Lemma get_column_replace_same {A} (c : string) (v : list A) (df : DataFrame A) :
  has_column c df = true ->
  get_column c
    (map (fun nc => if String.eqb (fst nc) c then (fst nc, v) else nc) df)
  = Some v.
Proof.
  unfold has_column, columns.
  induction df as [|[n col] df IH]; [discriminate|].
  cbn [map fst existsb get_column]. rewrite (String.eqb_sym c n).
  destruct (String.eqb n c) eqn:E; cbn [fst orb get_column].
  - now rewrite E.
  - rewrite E. exact IH.
Qed.

Lemma get_column_replace_other {A} (c c' : string) (v : list A) (df : DataFrame A) :
  c' <> c ->
  get_column c'
    (map (fun nc => if String.eqb (fst nc) c then (fst nc, v) else nc) df)
  = get_column c' df.
Proof.
  intros Hne. induction df as [|[n col] df IH]; [reflexivity|].
  cbn [map fst get_column].
  destruct (String.eqb n c) eqn:E; cbn [get_column]; rewrite IH; [|reflexivity].
  apply String.eqb_eq in E. subst n.
  apply not_eq_sym, String.eqb_neq in Hne. now rewrite Hne.
Qed.

Lemma columns_replace {A} (c : string) (v : list A) (df : DataFrame A) :
  columns (map (fun nc => if String.eqb (fst nc) c then (fst nc, v) else nc) df)
  = columns df.
Proof.
  unfold columns. rewrite map_map. apply map_ext.
  intros [n col]. cbn [fst]. now destruct (String.eqb n c).
Qed.

Lemma get_column_app_same {A} (c : string) (v : list A) (df : DataFrame A) :
  has_column c df = false -> get_column c (df ++ [(c, v)])%list = Some v.
Proof.
  unfold has_column, columns.
  induction df as [|[n col] df IH]; cbn [app map fst existsb get_column].
  - now rewrite String.eqb_refl.
  - rewrite (String.eqb_sym c n). intros H.
    apply orb_false_iff in H as [E H]. rewrite E. now apply IH.
Qed.

Lemma get_column_app_other {A} (c c' : string) (v : list A) (df : DataFrame A) :
  c' <> c -> get_column c' (df ++ [(c, v)])%list = get_column c' df.
Proof.
  intros Hne. induction df as [|[n col] df IH]; cbn [app get_column].
  - apply not_eq_sym, String.eqb_neq in Hne. now rewrite Hne.
  - now rewrite IH.
Qed.

Lemma get_column_app_old {A} (c : string) (col : list A) (df extra : DataFrame A) :
  get_column c df = Some col -> get_column c (df ++ extra)%list = Some col.
Proof.
  induction df as [|[n col'] df IH]; [discriminate|].
  cbn [app get_column]. destruct (String.eqb n c); [trivial|exact IH].
Qed.

Lemma set_column_get_same {A} (c : string) (v : list A) (df df' : DataFrame A) :
  set_column c v df = Some df' -> get_column c df' = Some v.
Proof.
  unfold set_column. destruct df as [|nc df].
  - intros [= <-]. cbn [get_column]. now rewrite String.eqb_refl.
  - destruct (_ =? _)%nat; [|discriminate].
    destruct (has_column c (nc :: df)) eqn:E; intros [= <-].
    + exact (get_column_replace_same c v (nc :: df) E).
    + exact (get_column_app_same c v (nc :: df) E).
Qed.

Lemma set_column_get_other {A} (c c' : string) (v : list A) (df df' : DataFrame A) :
  c' <> c -> set_column c v df = Some df' ->
  get_column c' df' = get_column c' df.
Proof.
  intros Hne. unfold set_column. destruct df as [|nc df].
  - intros [= <-]. cbn [get_column].
    apply not_eq_sym, String.eqb_neq in Hne. now rewrite Hne.
  - destruct (_ =? _)%nat; [|discriminate].
    destruct (has_column c (nc :: df)); intros [= <-].
    + exact (get_column_replace_other c c' v (nc :: df) Hne).
    + exact (get_column_app_other c c' v (nc :: df) Hne).
Qed.

Lemma set_column_columns {A} (c : string) (v : list A) (df df' : DataFrame A) :
  set_column c v df = Some df' ->
  columns df' = if has_column c df then columns df else (columns df ++ [c])%list.
Proof.
  unfold set_column. destruct df as [|nc df].
  - now intros [= <-].
  - destruct (_ =? _)%nat; [|discriminate].
    destruct (has_column c (nc :: df)); intros [= <-].
    + exact (columns_replace c v (nc :: df)).
    + exact (map_app fst (nc :: df) [(c, v)]).
Qed.

Lemma set_column_new {A} (c : string) (v : list A) (df df' : DataFrame A) :
  has_column c df = false -> set_column c v df = Some df' ->
  df' = (df ++ [(c, v)])%list /\ (df <> [] -> List.length v = nrows df).
Proof.
  intros Hc. unfold set_column. destruct df as [|nc df].
  - intros [= <-]. split; [reflexivity|congruence].
  - destruct (_ =? _)%nat eqn:E; [|discriminate].
    rewrite Hc. intros [= <-]. split; [reflexivity|].
    intros _. now apply Nat.eqb_eq.
Qed.

(** ** What a successful prediction request went through *)

Lemma predict_from_csv_ok (model : Pipeline) (file : UploadFile cell)
      (resp : FileResponse (DataFrame cell)) :
  snd (predict_from_csv model file) = inr resp ->
  exists df feats X probs labels df1,
    read_csv_result file = inr df
    /\ imputer_feature_names_in_ model = Some feats
    /\ select_columns feats df = Some X
    /\ predict_proba_1 model X = inr probs
    /\ predict model X = inr labels
    /\ set_column "prob_confirme_planeta" (map Num probs) df = Some df1
    /\ set_column "prediccion" labels df1 = Some (content resp).
Proof.
  unfold predict_from_csv.
  destruct (endswith (filename file) ".csv"); run_handler; [|discriminate].
  destruct (read_csv_result file) as [msg|df]; run_handler; [discriminate|].
  destruct (imputer_feature_names_in_ model) as [feats|]; run_handler;
    [|discriminate].
  destruct (filter (fun c => negb (has_column c df)) feats); run_handler;
    [|discriminate].
  destruct (select_columns feats df) as [X|] eqn:EX; run_handler;
    [|discriminate].
  destruct (predict_proba_1 model X) as [msg|probs] eqn:Ep; run_handler;
    [discriminate|].
  destruct (predict model X) as [msg|labels] eqn:El; run_handler;
    [discriminate|].
  destruct (set_column "prob_confirme_planeta" (map Num probs) df)
    as [df1|] eqn:E1; run_handler; [|discriminate].
  destruct (set_column "prediccion" labels df1) as [df2|] eqn:E2; run_handler;
    [|discriminate].
  intros [= <-]. exists df, feats, X, probs, labels, df1.
  repeat split; assumption.
Qed.

(** ** Claims on the prediction handler *)

Lemma nrows_app {A} (df extra : DataFrame A) :
  df <> [] -> nrows (df ++ extra)%list = nrows df.
Proof.
  destruct df as [|[n col] df]; [congruence|reflexivity].
Qed.

Lemma has_column_app {A} (c : string) (df extra : DataFrame A) :
  has_column c (df ++ extra)%list = has_column c df || has_column c extra.
Proof.
  unfold has_column, columns. now rewrite map_app, existsb_app.
Qed.

(** C7, as stated, fails: when the uploaded table already has a column
    [prediccion], the answer has one new column, not two, and the
    uploaded values of [prediccion] are gone. *)
Lemma predict_from_csv_existing_column :
  exists df resp,
    read_csv_result (sample_upload [("prediccion", [Str "old"; Str "older"])])
    = inr df
    /\ snd (predict_from_csv sample_model
              (sample_upload [("prediccion", [Str "old"; Str "older"])]))
       = inr resp
    /\ get_column "prediccion" df = Some [Str "old"; Str "older"]
    /\ get_column "prediccion" (content resp) = Some [Num 1; Num 1]
    /\ List.length (columns (content resp)) = S (List.length (columns df))
    /\ columns (content resp)
       <> (columns df ++ ["prob_confirme_planeta"; "prediccion"])%list.
Proof.
  eexists. eexists. split; [reflexivity|]. split; [reflexivity|].
  repeat split; discriminate.
Qed.

(** C7, amended.  For every request that is answered with a CSV, whose
    table has at least one column and none named [prob_confirme_planeta]
    or [prediccion], and a pipeline whose probabilities lie in [0,1]: the
    answer is the uploaded table, columns and rows unchanged and in the
    same order, followed by exactly the two columns
    [prob_confirme_planeta] and [prediccion], each with one value per
    row, the probabilities within [0,1]. *)
Theorem predict_from_csv_adds_two_columns :
  forall (model : Pipeline) (file : UploadFile cell)
         (resp : FileResponse (DataFrame cell)) (df : DataFrame cell),
    snd (predict_from_csv model file) = inr resp ->
    read_csv_result file = inr df ->
    df <> [] ->
    has_column "prob_confirme_planeta" df = false ->
    has_column "prediccion" df = false ->
    (forall X ps, predict_proba_1 model X = inr ps ->
                  Forall (fun p => 0 <= p <= 1) ps) ->
    exists probs labels,
      content resp
      = (df ++ [("prob_confirme_planeta", map Num probs);
                ("prediccion", labels)])%list
      /\ List.length probs = nrows df
      /\ List.length labels = nrows df
      /\ Forall (fun p => 0 <= p <= 1) probs
      /\ nrows (content resp) = nrows df
      /\ (forall c col, get_column c df = Some col ->
                        get_column c (content resp) = Some col).
Proof.
  intros model file resp df Hok Hdf Hne Hprob Hpred Hunit.
  apply predict_from_csv_ok in Hok
    as (df0 & feats & X & probs & labels & df1 & Hdf0 & _ & _ & Hp & _ & H1 & H2).
  rewrite Hdf in Hdf0. injection Hdf0 as <-.
  apply (set_column_new _ _ _ _ Hprob) in H1 as [-> Hlen1].
  assert (Hpred1 : has_column "prediccion"
                     (df ++ [("prob_confirme_planeta", map Num probs)])%list
                   = false).
  { rewrite has_column_app, Hpred. reflexivity. }
  apply (set_column_new _ _ _ _ Hpred1) in H2 as [E Hlen2].
  rewrite <- app_assoc in E. cbn [app] in E.
  exists probs, labels. rewrite E.
  split; [reflexivity|]. split.
  { rewrite <- (Hlen1 Hne). now rewrite length_map. }
  split.
  { rewrite Hlen2 by (intros Hnil; now apply app_eq_nil in Hnil as [Hnil _]).
    now apply nrows_app. }
  split; [now apply (Hunit X)|]. split; [now apply nrows_app|].
  intros c col Hc. now apply get_column_app_old.
Qed.

Lemma predict_from_csv_adds_two_columns_witness :
  exists resp probs labels,
    snd (predict_from_csv sample_model
           (sample_upload [("kepid", [Str "K1"; Str "K2"])])) = inr resp
    /\ content resp
       = (map (fun c => (c, [Num 1; Num 2])) FEATURE_COLS
          ++ [("kepid", [Str "K1"; Str "K2"])]
          ++ [("prob_confirme_planeta", map Num probs);
              ("prediccion", labels)])%list
    /\ Forall (fun p => 0 <= p <= 1) probs.
Proof.
  destruct (predict_from_csv_adds_two_columns
              sample_model (sample_upload [("kepid", [Str "K1"; Str "K2"])])
              _ _ eq_refl eq_refl)
    as (probs & labels & Hc & _ & _ & Hu & _).
  - discriminate.
  - reflexivity.
  - reflexivity.
  - intros X ps [= <-]. apply Forall_forall. intros p Hp.
    apply repeat_spec in Hp. subst p. split; discriminate.
  - eexists. exists probs, labels. split; [reflexivity|].
    split; [|exact Hu]. rewrite Hc. now rewrite <- app_assoc.
Defined.

(** C10.  When the uploaded table already has a column named
    [prob_confirme_planeta] or [prediccion], the answer holds under that
    name what the pipeline returned (the probabilities, or the labels),
    whatever was uploaded there; so uploaded values that differ from the
    pipeline's do not survive. *)
Theorem predict_from_csv_overwrites :
  forall (model : Pipeline) (file : UploadFile cell)
         (resp : FileResponse (DataFrame cell)) (df : DataFrame cell)
         (c : string),
    snd (predict_from_csv model file) = inr resp ->
    read_csv_result file = inr df ->
    In c ["prob_confirme_planeta"; "prediccion"] ->
    In c (columns df) ->
    exists feats X probs labels,
      imputer_feature_names_in_ model = Some feats
      /\ select_columns feats df = Some X
      /\ predict_proba_1 model X = inr probs
      /\ predict model X = inr labels
      /\ get_column c (content resp)
         = Some (if String.eqb c "prob_confirme_planeta"
                 then map Num probs else labels)
      /\ columns (content resp)
         = (if has_column "prob_confirme_planeta" df
               && has_column "prediccion" df
            then columns df
            else columns df
                 ++ [if has_column "prediccion" df
                     then "prob_confirme_planeta" else "prediccion"])%list
      /\ (forall old,
             get_column c df = Some old ->
             old <> (if String.eqb c "prob_confirme_planeta"
                     then map Num probs else labels) ->
             get_column c (content resp) <> get_column c df).
Proof.
  intros model file resp df c Hok Hdf Hc Hin.
  apply predict_from_csv_ok in Hok
    as (df0 & feats & X & probs & labels & df1 & Hdf0 & Hf & HX & Hp & Hl & H1 & H2).
  rewrite Hdf in Hdf0. injection Hdf0 as <-.
  exists feats, X, probs, labels. repeat (split; [assumption|]).
  assert (Hget : get_column c (content resp)
                 = Some (if String.eqb c "prob_confirme_planeta"
                         then map Num probs else labels)).
  { destruct Hc as [<-|[<-|[]]]; cbn [String.eqb Ascii.eqb Bool.eqb].
    - assert (Hne : "prob_confirme_planeta" <> "prediccion") by discriminate.
      rewrite (set_column_get_other _ _ _ _ _ Hne H2).
      now apply (set_column_get_same _ _ _ _ H1).
    - now apply (set_column_get_same _ _ _ _ H2). }
  split; [exact Hget|]. split.
  - rewrite (set_column_columns _ _ _ _ H2).
    assert (E : has_column "prediccion" df1 = has_column "prediccion" df).
    { unfold has_column. rewrite (set_column_columns _ _ _ _ H1).
      destruct (has_column "prob_confirme_planeta" df); [reflexivity|].
      rewrite existsb_app. cbn. now rewrite orb_false_r. }
    rewrite E, (set_column_columns _ _ _ _ H1).
    apply has_column_In in Hin.
    destruct (has_column "prob_confirme_planeta" df) eqn:E1,
             (has_column "prediccion" df) eqn:E2; cbn [andb]; try reflexivity.
    destruct Hc as [<-|[<-|[]]]; congruence.
  - intros old Hold Hdiff. rewrite Hget, Hold. congruence.
Qed.

Lemma predict_from_csv_overwrites_witness :
  exists resp X labels,
    snd (predict_from_csv sample_model
           (sample_upload [("prediccion", [Str "old"; Str "older"])]))
    = inr resp
    /\ predict sample_model X = inr labels
    /\ get_column "prediccion" (content resp) = Some labels.
Proof.
  destruct (predict_from_csv_overwrites
              sample_model
              (sample_upload [("prediccion", [Str "old"; Str "older"])])
              _ _ "prediccion" eq_refl eq_refl)
    as (feats & X & probs & labels & _ & _ & _ & Hl & Hget & _).
  - right. left. reflexivity.
  - apply has_column_In. reflexivity.
  - eexists. exists X, labels. split; [reflexivity|]. split; [exact Hl|exact Hget].
Defined.

Local Close Scope string_scope.

(** * Further properties of the code *)

(** ** The detector: what it returns and how it reacts to its inputs *)

Lemma gaps_of_witness (t : list Q) (thr x : Q) :
  In x (gaps_of t thr) -> exists y, In y t /\ thr < x - y.
Proof.
  induction t as [|a t IH]; [intros []|].
  destruct t as [|b r]; [intros []|].
  rewrite gaps_of_step. intros H. apply in_app_or in H as [H|H].
  - destruct (Qgtb (b - a) thr) eqn:E; [|destruct H].
    destruct H as [<-|[]]. exists a. split; [now left|].
    now apply Qgtb_true.
  - destruct (IH H) as [y [Hy Hlt]]. exists y. split; [now right|assumption].
Qed.

Lemma gaps_of_length (t : list Q) (thr : Q) :
  (List.length (gaps_of t thr) <= List.length t - 1)%nat.
Proof.
  induction t as [|a t IH]; [apply Nat.le_refl|].
  destruct t as [|b r]; [apply Nat.le_refl|].
  rewrite gaps_of_step, length_app.
  assert ((List.length (if Qgtb (b - a) thr then [b] else []) <= 1)%nat)
    by (destruct (Qgtb (b - a) thr); simpl; lia).
  simpl in *. lia.
Qed.

(** X1.  Every boundary the detector returns is one of the input values
    and lies more than the threshold above another input value; [n]
    values give at most [n - 1] boundaries. *)
Theorem detect_separators_values :
  forall (times : list Q) (threshold : Q),
    (forall x, In x (detect_separators times threshold) ->
               In x times
               /\ exists y, In y times /\ threshold < x - y)
    /\ (List.length (detect_separators times threshold)
        <= List.length times - 1)%nat.
Proof.
  intros times threshold. rewrite detect_separators_gaps_of. split.
  - intros x Hx. split.
    + apply gaps_of_subset in Hx.
      apply (Permutation_in x (Permutation_sym (sort_values_perm times))).
      destruct (sort_values times); [destruct Hx|now right].
    + destruct (gaps_of_witness _ _ _ Hx) as [y [Hy Hlt]].
      exists y. split; [|assumption].
      now apply (Permutation_in y (Permutation_sym (sort_values_perm times))).
  - rewrite <- (sort_values_length times). apply gaps_of_length.
Qed.

Lemma detect_separators_values_witness :
  In 30 [35; 0; 30; 5] /\ exists y, In y [35; 0; 30; 5] /\ 20 < 30 - y.
Proof.
  apply (proj1 (detect_separators_values [35; 0; 30; 5] 20) 30).
  left. reflexivity.
Defined.

Lemma mask_select_incl {A} (l : list A) (mask : list bool) :
  incl (mask_select l mask) l.
Proof.
  revert mask. induction l as [|x l IH]; intros [|m mask]; simpl;
    try (intros y []).
  destruct m.
  - intros y [<-|Hy]; [now left|right; now apply (IH mask)].
  - intros y Hy. right. now apply (IH mask).
Qed.

Lemma gaps_of_threshold_mask (t : list Q) (thr thr' : Q) :
  thr <= thr' ->
  exists mask, gaps_of t thr' = mask_select (gaps_of t thr) mask.
Proof.
  intros Hle. induction t as [|a t IH]; [now exists []|].
  destruct t as [|b r]; [now exists []|].
  destruct IH as [mask IH]. rewrite !gaps_of_step, IH.
  destruct (Qgtb (b - a) thr') eqn:E'.
  - apply Qgtb_true in E'.
    assert (E : Qgtb (b - a) thr = true)
      by (apply Qgtb_true; now apply Qle_lt_trans with thr').
    rewrite E. now exists (true :: mask).
  - destruct (Qgtb (b - a) thr).
    + now exists (false :: mask).
    + now exists mask.
Qed.

(** X2.  Raising the threshold only removes boundaries: the boundaries
    found with a larger threshold are a selection, in the same order, of
    those found with a smaller one. *)
Theorem detect_separators_threshold_monotone :
  forall (times : list Q) (threshold threshold' : Q),
    threshold <= threshold' ->
    (exists mask,
        detect_separators times threshold'
        = mask_select (detect_separators times threshold) mask)
    /\ incl (detect_separators times threshold')
            (detect_separators times threshold).
Proof.
  intros times threshold threshold' Hle.
  rewrite !detect_separators_gaps_of.
  destruct (gaps_of_threshold_mask (sort_values times) _ _ Hle) as [mask E].
  split; [now exists mask|].
  rewrite E. apply mask_select_incl.
Qed.

Lemma detect_separators_threshold_monotone_witness :
  incl (detect_separators [0; 5; 30; 35; 90] 30)
       (detect_separators [0; 5; 30; 35; 90] 20).
Proof.
  apply (detect_separators_threshold_monotone [0; 5; 30; 35; 90] 20 30).
  unfold Qle. simpl. lia.
Defined.

(** ** The parser: a separator character splits the text *)

Local Open Scope char_scope.

Lemma span_digits_ext (x b : list ascii) (c : ascii) :
  is_digit c = false ->
  span_digits (x ++ c :: b)
  = (fst (span_digits x), snd (span_digits x) ++ c :: b).
Proof.
  intros Hc. induction x as [|d x IH]; cbn [app span_digits].
  - now rewrite Hc.
  - destruct (is_digit d); [|reflexivity].
    rewrite IH. now destruct (span_digits x).
Qed.

Lemma match_unsigned_ext (x b : list ascii) (c : ascii) :
  separator_char c = true ->
  match_unsigned (x ++ c :: b)
  = option_map (fun m => (fst m, snd m ++ c :: b)) (match_unsigned x).
Proof.
  intros Hsep. pose proof (separator_char_inv c Hsep) as (Hd & _ & Hdot).
  unfold match_unsigned. rewrite (span_digits_ext x b c Hd).
  destruct (span_digits x) as [ds r]. cbn [fst snd].
  destruct ds as [|d ds]; [reflexivity|].
  destruct r as [|c' r].
  - cbn [app].
    destruct c as [[] [] [] [] [] [] [] []]; try reflexivity; discriminate.
  - cbn [app]. destruct (c' =? ".") eqn:E.
    + apply Ascii.eqb_eq in E. subst c'.
      rewrite (span_digits_ext r b c Hd).
      destruct (span_digits r) as [fs r']. cbn [fst snd].
      destruct fs; reflexivity.
    + destruct c' as [[] [] [] [] [] [] [] []]; try reflexivity; discriminate.
Qed.

Lemma match_number_ext (x b : list ascii) (c : ascii) :
  separator_char c = true ->
  match_number (x ++ c :: b)
  = option_map (fun m => (fst m, snd m ++ c :: b)) (match_number x).
Proof.
  intros Hsep. pose proof (separator_char_inv c Hsep) as (Hd & Hs & _).
  destruct x as [|c0 x].
  - cbn [app match_number option_map]. rewrite Hs.
    apply match_unsigned_no_digit. right. exists c. now split.
  - unfold match_number. cbn [app].
    pose proof (match_unsigned_ext (c0 :: x) b c Hsep) as E0.
    cbn [app] in E0. rewrite E0.
    destruct (is_sign c0); [|reflexivity].
    rewrite (match_unsigned_ext x b c Hsep).
    destruct (match_unsigned x) as [[tok r]|]; reflexivity.
Qed.

Lemma match_unsigned_split (s u r : list ascii) :
  match_unsigned s = Some (u, r) -> s = u ++ r.
Proof.
  unfold match_unsigned.
  pose proof (span_digits_spec s) as [_ Hs].
  destruct (span_digits s) as [ds r0]. cbn [fst snd] in Hs.
  destruct ds as [|d ds]; [discriminate|].
  assert (Hplain : Some (d :: ds, r0) = Some (u, r) -> s = u ++ r)
    by (intros [= <- <-]; exact Hs).
  destruct r0 as [|c r0]; [exact Hplain|].
  destruct (c =? ".") eqn:E.
  - apply Ascii.eqb_eq in E. subst c.
    pose proof (span_digits_spec r0) as [_ Hr].
    destruct (span_digits r0) as [fs r1]. cbn [fst snd] in Hr.
    destruct fs as [|f fs]; [exact Hplain|].
    intros [= <- <-]. subst s r0. cbn [app]. f_equal.
    now rewrite <- app_assoc.
  - intros H. apply Hplain.
    destruct c as [[] [] [] [] [] [] [] []]; try exact H; discriminate.
Qed.

Lemma match_number_split (s tok r : list ascii) :
  match_number s = Some (tok, r) -> s = tok ++ r.
Proof.
  unfold match_number. destruct s as [|c s]; [discriminate|].
  destruct (is_sign c); [|apply match_unsigned_split].
  destruct (match_unsigned s) as [[u r1]|] eqn:E.
  - intros [= <- <-]. apply match_unsigned_split in E. now rewrite E.
  - apply match_unsigned_split.
Qed.

Lemma findall_skip_ext (x b : list ascii) (c : ascii) (k : nat) :
  separator_char c = true ->
  (k <= List.length x)%nat ->
  findall_skip k (x ++ c :: b) = findall_skip k x ++ findall_skip 0 b.
Proof.
  intros Hsep. revert k. induction x as [|c0 x IH]; intros k Hk.
  - assert (k = 0)%nat by (simpl in Hk; lia). subst k.
    exact (findall_separator [c] b ltac:(cbn; now rewrite Hsep)).
  - cbn [app findall_skip]. destruct k as [|k].
    + pose proof (match_number_ext (c0 :: x) b c Hsep) as E.
      cbn [app] in E. rewrite E.
      destruct (match_number (c0 :: x)) as [[tok r]|] eqn:Em;
        cbn [option_map fst].
      * apply match_number_split in Em.
        assert (Hlen : (List.length tok - 1 <= List.length x)%nat).
        { apply (f_equal (@List.length ascii)) in Em.
          rewrite length_app in Em. simpl in Em. lia. }
        now rewrite (IH _ Hlen).
      * apply IH. lia.
    + apply IH. simpl in Hk. lia.
Qed.

Lemma floats_app (l1 l2 : list (list ascii)) :
  floats (l1 ++ l2)
  = match floats l1, floats l2 with
    | Some a, Some b => Some (a ++ b)
    | _, _ => None
    end.
Proof.
  induction l1 as [|x l1 IH]; cbn [app floats].
  - now destruct (floats l2).
  - rewrite IH. destruct (float x); [|reflexivity].
    destruct (floats l1); [|reflexivity].
    now destruct (floats l2).
Qed.

Lemma list_ascii_of_string_app (a b : string) :
  list_ascii_of_string (a ++ b)%string
  = list_ascii_of_string a ++ list_ascii_of_string b.
Proof.
  induction a as [|c a IH]; [reflexivity|]. cbn. now rewrite IH.
Qed.

(** X6.  A separator character (any character that is not a digit, a
    sign or a dot; the comma is one) splits the text: the numbers parsed
    from two texts joined by it are those of the first followed by those
    of the second. *)
Theorem parse_separators_split :
  forall (a b : string) (c : ascii),
    separator_char c = true ->
    _parse_separators (Some (a ++ String c b)%string)
    = _parse_separators (Some a) ++ _parse_separators (Some b).
Proof.
  intros a b c Hsep.
  rewrite !parse_separators_unfold, list_ascii_of_string_app.
  cbn [list_ascii_of_string]. rewrite replace_comma_app.
  change (replace_comma (c :: list_ascii_of_string b))
    with ((if c =? "," then " " else c) :: replace_comma (list_ascii_of_string b)).
  assert (Hsep' : separator_char (if c =? "," then " " else c) = true)
    by (destruct (c =? ","); [reflexivity|assumption]).
  unfold findall.
  rewrite (findall_skip_ext _ _ _ 0 Hsep' (Nat.le_0_l _)), floats_app.
  destruct (floats_total _ (findall_skip_float
              (replace_comma (list_ascii_of_string a)) 0)) as [xa [Ha _]].
  destruct (floats_total _ (findall_skip_float
              (replace_comma (list_ascii_of_string b)) 0)) as [xb [Hb _]].
  now rewrite Ha, Hb.
Qed.

Lemma parse_separators_split_witness :
  _parse_separators (Some "370|-1.5,+2"%string)
  = _parse_separators (Some "370"%string)
    ++ _parse_separators (Some "-1.5,+2"%string).
Proof.
  apply (parse_separators_split "370" "-1.5,+2" "|"). reflexivity.
Defined.

Local Close Scope char_scope.

(** ** The frame sort of the graph handler *)

Lemma insert_index_values (key : nat -> Q) (i : nat) (l : list nat) :
  map key (insert_index key i l) = insert_sorted (key i) (map key l).
Proof.
  induction l as [|h l IH]; [reflexivity|].
  cbn [insert_index map insert_sorted].
  destruct (Qleb (key i) (key h)); cbn [map]; [reflexivity|now rewrite IH].
Qed.

Lemma insert_index_perm (key : nat -> Q) (i : nat) (l : list nat) :
  Permutation (i :: l) (insert_index key i l).
Proof.
  induction l as [|h l IH]; [reflexivity|].
  cbn [insert_index]. destruct (Qleb (key i) (key h)); [reflexivity|].
  rewrite perm_swap. now apply perm_skip.
Qed.

Lemma sorted_indices_perm (key : nat -> Q) (l : list nat) :
  Permutation l (fold_right (insert_index key) [] l).
Proof.
  induction l as [|i l IH]; [constructor|].
  cbn [fold_right]. rewrite <- insert_index_perm. now apply perm_skip.
Qed.

Lemma sorted_indices_values (pre suf : list Q) :
  map (fun i => nth i (pre ++ suf) 0)
      (fold_right (insert_index (fun i => nth i (pre ++ suf) 0)) []
                  (seq (List.length pre) (List.length suf)))
  = sort_values suf.
Proof.
  revert pre. induction suf as [|x suf IH]; intros pre; [reflexivity|].
  cbn [List.length seq fold_right sort_values].
  rewrite insert_index_values. f_equal.
  - now rewrite nth_middle.
  - specialize (IH (pre ++ [x])).
    rewrite <- app_assoc, last_length in IH. exact IH.
Qed.

(** The row order computed by [argsort] lists every row once and puts
    the values in ascending order. *)
Lemma argsort_values (v : list Q) :
  map (fun i => nth i v 0) (argsort v) = sort_values v.
Proof.
  exact (sorted_indices_values [] v).
Qed.

Lemma argsort_perm (v : list Q) :
  Permutation (argsort v) (seq 0 (List.length v)).
Proof.
  symmetry. apply sorted_indices_perm.
Qed.

Lemma get_column_map {A B} (g : list A -> list B) (c : string) (df : DataFrame A) :
  get_column c (map (fun nc => (fst nc, g (snd nc))) df)
  = option_map g (get_column c df).
Proof.
  induction df as [|[n col] df IH]; [reflexivity|].
  cbn [map fst snd get_column]. now destruct (String.eqb n c).
Qed.

Lemma get_column_In {A} (c : string) (col : list A) (df : DataFrame A) :
  get_column c df = Some col -> In c (columns df).
Proof.
  induction df as [|[n col'] df IH]; [discriminate|].
  cbn [get_column columns map fst].
  destruct (String.eqb n c) eqn:E.
  - intros _. left. now apply String.eqb_eq.
  - intros H. right. now apply IH.
Qed.

Lemma In_get_column {A} (c : string) (df : DataFrame A) :
  In c (columns df) -> exists col, get_column c df = Some col.
Proof.
  induction df as [|[n col'] df IH]; [intros []|].
  cbn [get_column columns map fst].
  destruct (String.eqb n c) eqn:E; [now eexists|].
  intros [H|H]; [|now apply IH].
  apply String.eqb_neq in E. contradiction.
Qed.

Lemma combine_as_rows (t f : list Q) :
  List.length f = List.length t ->
  combine t f = map (fun i => (nth i t 0, nth i f 0)) (seq 0 (List.length t)).
Proof.
  revert f. induction t as [|a t IH]; intros [|b f] H; try discriminate;
    [reflexivity|].
  cbn [combine List.length seq map nth]. f_equal.
  rewrite <- seq_shift, map_map. apply IH. now injection H.
Qed.

Lemma combine_map_rows (t f : list Q) (idx : list nat) :
  combine (map (fun i => nth i t 0) idx) (map (fun i => nth i f 0) idx)
  = map (fun i => (nth i t 0, nth i f 0)) idx.
Proof.
  induction idx as [|i idx IH]; [reflexivity|].
  cbn [map combine]. now rewrite IH.
Qed.

(** What [sort_values_by] does to the key column and to the rows. *)
Lemma sort_values_by_spec (by_ : string) (df df' : DataFrame Q) (v : list Q) :
  sort_values_by by_ df = Some df' ->
  get_column by_ df = Some v ->
  columns df' = columns df
  /\ get_column by_ df' = Some (sort_values v)
  /\ (forall c col,
         get_column c df = Some col ->
         exists col',
           get_column c df' = Some col'
           /\ List.length col' = List.length v
           /\ (List.length col = List.length v ->
               Permutation (combine (sort_values v) col') (combine v col))).
Proof.
  unfold sort_values_by. intros H Hv. rewrite Hv in H. injection H as <-.
  split; [|split].
  - unfold columns. rewrite map_map. reflexivity.
  - rewrite (get_column_map (fun col => map (fun i => nth i col 0) (argsort v))).
    rewrite Hv. cbn [option_map]. now rewrite argsort_values.
  - intros c col Hc. eexists. split; [|split].
    + rewrite (get_column_map (fun col => map (fun i => nth i col 0) (argsort v))).
      rewrite Hc. reflexivity.
    + rewrite length_map, (Permutation_length (argsort_perm v)).
      apply length_seq.
    + intros Hlen. rewrite <- argsort_values, combine_map_rows.
      rewrite (combine_as_rows v col Hlen).
      apply Permutation_map, argsort_perm.
Qed.

(** ** The graph handler, path by path *)

Local Open Scope string_scope.

Ltac handler_case :=
  match goal with
  | |- context [match ?x with inl _ => _ | inr _ => _ end] => destruct x eqn:?
  | |- context [match ?x with Some _ => _ | None => _ end] => destruct x eqn:?
  | |- context [match ?x with [] => _ | _ :: _ => _ end] => destruct x eqn:?
  | |- context [if ?b then _ else _] => destruct b eqn:?
  end.

Ltac handler_cases :=
  unfold raise_if, key_error, value_error, call, tell;
  run_handler; repeat (handler_case; run_handler).

Lemma issubset_time_flux (df : DataFrame Q) (times flux : list Q) :
  get_column "time" df = Some times ->
  get_column "flux" df = Some flux ->
  issubset ["time"; "flux"] (columns df) = true.
Proof.
  intros Ht Hf. unfold issubset. cbn [forallb].
  apply get_column_In in Ht, Hf.
  apply existsb_eqb_In in Ht, Hf. now rewrite Ht, Hf.
Qed.

Lemma draw_separators_text (color : string) (i : nat) (xs : list Q) :
  map vl_text (draw_separators color i xs)
  = map (fun k => "Q" ++ str_of_nat k) (seq i (List.length xs)).
Proof.
  revert i. induction xs as [|x xs IH]; intros i; [reflexivity|].
  cbn [draw_separators map vl_text List.length seq]. now rewrite IH.
Qed.

Lemma draw_separators_color (color : string) (i : nat) (xs : list Q) :
  Forall (fun l => vl_color l = color) (draw_separators color i xs).
Proof.
  revert i. induction xs as [|x xs IH]; intros i; constructor;
    [reflexivity|apply IH].
Qed.

Lemma draw_separators_length (color : string) (i : nat) (xs : list Q) :
  List.length (draw_separators color i xs) = List.length xs.
Proof.
  revert i. induction xs as [|x xs IH]; intros i; [reflexivity|].
  cbn [draw_separators List.length]. now rewrite IH.
Qed.

Lemma draw_separators_labels (color : string) (xs : list Q) (ls : list VLine) :
  ls = draw_separators color 1 xs ->
  map vl_text ls
  = map (fun k => "Q" ++ str_of_nat k) (seq 1 (List.length ls))
  /\ Forall (fun l => vl_color l = color) ls.
Proof.
  intros ->. split; [|apply draw_separators_color].
  now rewrite draw_separators_text, draw_separators_length.
Qed.

(** X8.  In every image the handler answers with, the vertical lines are
    labelled [Q1], [Q2], ... in drawing order, and all have the submitted
    colour, black when none was submitted. *)
Theorem csv_to_graph_labels :
  forall (plt : Figure -> option string) (form : GraphForm)
         (resp : FileResponse Figure),
    snd (csv_to_graph plt form) = inr resp ->
    map vl_text (fig_vlines (content resp))
    = map (fun k => "Q" ++ str_of_nat k)
          (seq 1 (List.length (fig_vlines (content resp))))
    /\ Forall (fun l => vl_color l = Form "black" (sep_color form))
              (fig_vlines (content resp)).
Proof.
  intros plt form resp. unfold csv_to_graph.
  handler_cases; try discriminate;
    intros [= <-];
    first [ eapply draw_separators_labels; reflexivity
          | match goal with
            | H : _ = ?xs |- _ =>
                apply (draw_separators_labels _ xs); reflexivity
            end ].
Qed.

Lemma csv_to_graph_labels_witness :
  exists resp,
    snd (csv_to_graph plt_ok (sample_form (Some "35, 5 30") None)) = inr resp
    /\ map vl_text (fig_vlines (content resp)) = ["Q1"; "Q2"; "Q3"].
Proof.
  eexists. split; [reflexivity|].
  apply (proj1 (csv_to_graph_labels
                  plt_ok (sample_form (Some "35, 5 30") None) _ eq_refl)).
Defined.

(** X9.  On the graph path a failure of a library is answered 500 with
    the library's message after the fixed prefix: a CSV that pandas
    cannot read, before anything is written; a figure that matplotlib
    cannot draw or save, after the temporary file has been created. *)
Theorem csv_to_graph_library_failures :
  forall (plt : Figure -> option string) (form : GraphForm),
    endswith (filename (file form)) ".csv" = true ->
    (forall msg,
        read_csv_result (file form) = inl msg ->
        snd (csv_to_graph plt form)
        = inl (HTTPException 500 ("Error al procesar el CSV: " ++ msg))
        /\ fst (csv_to_graph plt form) = [ev_read_csv; ev_close])
    /\ (forall df times flux msg,
           read_csv_result (file form) = inr df ->
           get_column "time" df = Some times ->
           get_column "flux" df = Some flux ->
           (forall fig, plt fig = Some msg) ->
           snd (csv_to_graph plt form)
           = inl (HTTPException 500 ("Error al procesar el CSV: " ++ msg))
           /\ In (ev_tempfile ".png") (fst (csv_to_graph plt form))).
Proof.
  intros plt form Hext. split.
  - intros msg Hcsv. unfold csv_to_graph.
    rewrite Hext. run_handler. rewrite Hcsv. run_handler. now split.
  - intros df times flux msg Hcsv Ht Hf Hplt.
    pose proof (issubset_time_flux df times flux Ht Hf) as Hsub.
    destruct (sort_values_by "time" df) as [df'|] eqn:Es;
      [|unfold sort_values_by in Es; rewrite Ht in Es; discriminate].
    destruct (sort_values_by_spec _ _ _ _ Es Ht) as (_ & Ht' & Hrows).
    destruct (Hrows "flux" flux Hf) as (flux' & Hf' & _).
    unfold csv_to_graph. rewrite Hext. run_handler.
    rewrite Hcsv. run_handler. rewrite Hsub. run_handler.
    rewrite Es. run_handler.
    destruct (_parse_separators (separators form)) as [|x xs]; run_handler;
      rewrite Ht'; run_handler; rewrite Hf'; run_handler;
      rewrite Hplt; run_handler;
      (split; [reflexivity|cbn [In]; tauto]).
Qed.

Lemma csv_to_graph_library_failures_witness :
  snd (csv_to_graph (fun _ => Some "bad colour") (sample_form None None))
  = inl (HTTPException 500 "Error al procesar el CSV: bad colour")
  /\ snd (csv_to_graph plt_ok
            (bare_form {| filename := "lightcurve.csv";
                          read_csv_result := inl "No columns to parse from file" |}))
     = inl (HTTPException 500
              "Error al procesar el CSV: No columns to parse from file").
Proof.
  split.
  - apply (proj2 (csv_to_graph_library_failures
                    (fun _ => Some "bad colour") (sample_form None None)
                    eq_refl)
                 _ [35; 0; 30; 5] [1; 2; 3; 4] "bad colour"
                 eq_refl eq_refl eq_refl (fun _ => eq_refl)).
  - apply (proj1 (csv_to_graph_library_failures plt_ok
                    (bare_form {| filename := "lightcurve.csv";
                                  read_csv_result :=
                                    inl "No columns to parse from file" |})
                    eq_refl)
                 "No columns to parse from file" eq_refl).
Defined.

(** ** Both handlers: how every request ends *)

Ltac close_last :=
  match goal with
  | |- exists l, ?L = (l ++ [ev_close])%list /\ _ =>
      exists (removelast L); split; [reflexivity|cbn; not_in_log]
  end.

(** X10.  On every path, successful or not, each handler closes the
    upload exactly once, and does so last. *)
Theorem handlers_close_upload :
  (forall (plt : Figure -> option string) (form : GraphForm),
      exists l,
        fst (csv_to_graph plt form) = (l ++ [ev_close])%list
        /\ ~ In ev_close l)
  /\ (forall (model : Pipeline) (file : UploadFile cell),
         exists l,
           fst (predict_from_csv model file) = (l ++ [ev_close])%list
           /\ ~ In ev_close l).
Proof.
  split.
  - intros plt form. unfold csv_to_graph. handler_cases; close_last.
  - intros model file. unfold predict_from_csv. handler_cases; close_last.
Qed.

(** X11.  Every error a handler ends with is an HTTP error with status
    400 or 500: no other status and no bare exception leaves a handler. *)
Theorem handlers_error_statuses :
  (forall (plt : Figure -> option string) (form : GraphForm) (e : exn),
      snd (csv_to_graph plt form) = inl e ->
      exists detail,
        e = HTTPException 400 detail \/ e = HTTPException 500 detail)
  /\ (forall (model : Pipeline) (file : UploadFile cell) (e : exn),
         snd (predict_from_csv model file) = inl e ->
         exists detail,
           e = HTTPException 400 detail \/ e = HTTPException 500 detail).
Proof.
  split.
  - intros plt form e. unfold csv_to_graph.
    handler_cases; try discriminate; intros [= <-]; eexists; auto.
  - intros model file e. unfold predict_from_csv.
    handler_cases; try discriminate; intros [= <-]; eexists; auto.
Qed.

Lemma handlers_error_statuses_witness :
  exists detail,
    HTTPException 400 "El CSV debe contener las columnas 'time' y 'flux'."
    = HTTPException 400 detail
    \/ HTTPException 400 "El CSV debe contener las columnas 'time' y 'flux'."
       = HTTPException 500 detail.
Proof.
  apply (proj1 handlers_error_statuses plt_ok
           (bare_form {| filename := "lightcurve.csv";
                         read_csv_result :=
                           inr [("time", [0]); ("brightness", [1])] |})).
  reflexivity.
Defined.

(** ** The prediction handler, path by path *)

Lemma no_missing_columns {A} (feats : list string) (df : DataFrame A) :
  filter (fun c => negb (has_column c df)) feats = [] <->
  (forall c, In c feats -> In c (columns df)).
Proof.
  split.
  - intros E c Hc. destruct (has_column c df) eqn:Hh;
      [now apply has_column_In|].
    assert (Hin : In c (filter (fun c => negb (has_column c df)) feats))
      by (apply filter_In; now rewrite Hh).
    rewrite E in Hin. destruct Hin.
  - intros H. apply filter_none. intros c Hc.
    apply negb_false_iff, has_column_In, H, Hc.
Qed.

Lemma select_columns_total {A} (feats : list string) (df : DataFrame A) :
  (forall c, In c feats -> In c (columns df)) ->
  exists X, select_columns feats df = Some X.
Proof.
  induction feats as [|n feats IH]; intros H; [now exists []|].
  destruct (In_get_column n df (H n (or_introl eq_refl))) as [col Hcol].
  destruct IH as [X HX]; [intros c Hc; apply H; now right|].
  exists ((n, col) :: X). cbn [select_columns]. now rewrite Hcol, HX.
Qed.

Lemma select_columns_spec {A} (feats : list string) (df X : DataFrame A) :
  select_columns feats df = Some X ->
  columns X = feats
  /\ (forall c, In c feats -> get_column c X = get_column c df).
Proof.
  revert X. induction feats as [|n feats IH]; intros X.
  - intros [= <-]. split; [reflexivity|intros c []].
  - cbn [select_columns].
    destruct (get_column n df) as [col|] eqn:Hcol; [|discriminate].
    destruct (select_columns feats df) as [X'|]; [|discriminate].
    intros [= <-]. destruct (IH X' eq_refl) as [Hc Hg]. split.
    + cbn [columns map fst]. f_equal. exact Hc.
    + intros c Hin. cbn [get_column].
      destruct (String.eqb n c) eqn:E.
      * apply String.eqb_eq in E. now subst c.
      * destruct Hin as [->|Hin]; [now rewrite String.eqb_refl in E|].
        now apply Hg.
Qed.

Lemma set_column_some {A} (c : string) (v : list A) (df : DataFrame A) :
  List.length v = nrows df ->
  exists df', set_column c v df = Some df' /\ nrows df' = nrows df.
Proof.
  intros Hlen. unfold set_column. destruct df as [|[n col] df].
  - eexists. split; [reflexivity|exact Hlen].
  - apply Nat.eqb_eq in Hlen. rewrite Hlen. apply Nat.eqb_eq in Hlen.
    destruct (has_column c ((n, col) :: df)); eexists;
      (split; [reflexivity|]).
    + cbn [map fst]. destruct (String.eqb n c); [exact Hlen|reflexivity].
    + reflexivity.
Qed.

(** X12.  When the upload is a [.csv] that parses to a table holding
    every column the pipeline declares, the pipeline is called on exactly
    those columns, in the declared order and with the uploaded values,
    whatever else the table holds; and when it returns one probability
    and one label per row the request is answered with a CSV whose
    [prob_confirme_planeta] and [prediccion] columns hold them. *)
Theorem predict_from_csv_success :
  forall (model : Pipeline) (file : UploadFile cell)
         (df : DataFrame cell) (feats : list string),
    endswith (filename file) ".csv" = true ->
    read_csv_result file = inr df ->
    imputer_feature_names_in_ model = Some feats ->
    (forall c, In c feats -> In c (columns df)) ->
    exists X,
      select_columns feats df = Some X
      /\ columns X = feats
      /\ (forall c, In c feats -> get_column c X = get_column c df)
      /\ (forall probs labels,
             predict_proba_1 model X = inr probs ->
             predict model X = inr labels ->
             List.length probs = nrows df ->
             List.length labels = nrows df ->
             exists resp,
               snd (predict_from_csv model file) = inr resp
               /\ media_type resp = "text/csv"
               /\ download_name resp = "predicciones_exoplanetas.csv"
               /\ get_column "prob_confirme_planeta" (content resp)
                  = Some (map Num probs)
               /\ get_column "prediccion" (content resp) = Some labels
               /\ nrows (content resp) = nrows df).
Proof.
  intros model file df feats Hext Hcsv Himp Hall.
  destruct (select_columns_total feats df Hall) as [X HX].
  destruct (select_columns_spec feats df X HX) as [Hcols Hget].
  exists X. repeat (split; [assumption|]).
  intros probs labels Hp Hl Hlp Hll.
  destruct (set_column_some "prob_confirme_planeta" (map Num probs) df)
    as (df1 & H1 & Hn1); [now rewrite length_map|].
  destruct (set_column_some "prediccion" labels df1)
    as (df2 & H2 & Hn2); [now rewrite Hn1|].
  apply no_missing_columns in Hall.
  unfold predict_from_csv. rewrite Hext. run_handler.
  rewrite Hcsv. run_handler. rewrite Himp. run_handler.
  rewrite Hall. run_handler. rewrite HX. run_handler.
  rewrite Hp. run_handler. rewrite Hl. run_handler.
  rewrite H1. run_handler. rewrite H2. run_handler.
  eexists. split; [reflexivity|].
  cbn [content media_type download_name].
  repeat (split; [reflexivity|]). split; [|split].
  - assert (Hne : "prob_confirme_planeta" <> "prediccion") by discriminate.
    rewrite (set_column_get_other _ _ _ _ _ Hne H2).
    exact (set_column_get_same _ _ _ _ H1).
  - exact (set_column_get_same _ _ _ _ H2).
  - now rewrite Hn2.
Qed.

Lemma predict_from_csv_success_witness :
  exists X resp,
    select_columns FEATURE_COLS
      (map (fun c => (c, [Num 1; Num 2])) (rev FEATURE_COLS)
       ++ [("kepid", [Str "K1"; Str "K2"])])%list = Some X
    /\ columns X = FEATURE_COLS
    /\ snd (predict_from_csv sample_model
              {| filename := "candidates.csv";
                 read_csv_result :=
                   inr (map (fun c => (c, [Num 1; Num 2])) (rev FEATURE_COLS)
                        ++ [("kepid", [Str "K1"; Str "K2"])])%list |})
       = inr resp
    /\ get_column "prediccion" (content resp) = Some [Num 1; Num 1].
Proof.
  destruct (predict_from_csv_success sample_model
              {| filename := "candidates.csv";
                 read_csv_result :=
                   inr (map (fun c => (c, [Num 1; Num 2])) (rev FEATURE_COLS)
                        ++ [("kepid", [Str "K1"; Str "K2"])])%list |}
              _ FEATURE_COLS eq_refl eq_refl eq_refl)
    as (X & HX & Hc & _ & Hrun).
  - intros c Hc. cbn in Hc |- *. tauto.
  - assert (E : X = map (fun c => (c, [Num 1; Num 2])) FEATURE_COLS)
      by (vm_compute in HX; injection HX as <-; reflexivity).
    destruct (Hrun [1 # 2; 1 # 2] [Num 1; Num 1])
      as (resp & Hr & _ & _ & _ & Hl & _);
      [rewrite E; reflexivity | rewrite E; reflexivity
       | reflexivity | reflexivity |].
    exists X, resp. repeat split; assumption.
Defined.

(** X13.  On the prediction path, for a [.csv] upload: a CSV that pandas
    cannot read is answered 500 with the library's message after the
    fixed prefix; a pipeline without an [imputer] step is answered 500
    with its own fixed message, whatever columns the table has or lacks;
    a pipeline that fails on the selected columns is answered 500 with
    its message after the prefix.  In none of these cases is anything
    written. *)
Theorem predict_from_csv_failures :
  forall (model : Pipeline) (file : UploadFile cell),
    endswith (filename file) ".csv" = true ->
    (forall msg,
        read_csv_result file = inl msg ->
        snd (predict_from_csv model file)
        = inl (HTTPException 500 ("Error en la predicción: " ++ msg))
        /\ fst (predict_from_csv model file) = [ev_read_csv; ev_close])
    /\ (forall df,
           read_csv_result file = inr df ->
           imputer_feature_names_in_ model = None ->
           snd (predict_from_csv model file)
           = inl (HTTPException 500
                    "El modelo cargado no contiene 'imputer' en el pipeline.")
           /\ fst (predict_from_csv model file) = [ev_read_csv; ev_close])
    /\ (forall df feats X msg,
           read_csv_result file = inr df ->
           imputer_feature_names_in_ model = Some feats ->
           select_columns feats df = Some X ->
           predict_proba_1 model X = inl msg
           \/ (exists probs, predict_proba_1 model X = inr probs
                             /\ predict model X = inl msg) ->
           snd (predict_from_csv model file)
           = inl (HTTPException 500 ("Error en la predicción: " ++ msg))
           /\ no_output (fst (predict_from_csv model file))).
Proof.
  intros model file Hext. split; [|split].
  - intros msg Hcsv. unfold predict_from_csv.
    rewrite Hext. run_handler. rewrite Hcsv. run_handler. now split.
  - intros df Hcsv Himp. unfold predict_from_csv.
    rewrite Hext. run_handler. rewrite Hcsv. run_handler.
    rewrite Himp. run_handler. now split.
  - intros df feats X msg Hcsv Himp HX Hfail.
    assert (Hall : filter (fun c => negb (has_column c df)) feats = []).
    { apply no_missing_columns. intros c Hc.
      destruct (select_columns_spec _ _ _ HX) as [_ Hget].
      specialize (Hget c Hc).
      assert (Hin : In c (columns X)).
      { destruct (select_columns_spec _ _ _ HX) as [-> _]. exact Hc. }
      destruct (In_get_column c X Hin) as [col Hcol].
      rewrite Hcol in Hget. symmetry in Hget.
      now apply get_column_In in Hget. }
    unfold predict_from_csv. rewrite Hext. run_handler.
    rewrite Hcsv. run_handler. rewrite Himp. run_handler.
    rewrite Hall. run_handler. rewrite HX. run_handler.
    destruct Hfail as [Hp|[probs [Hp Hl]]]; rewrite Hp; run_handler.
    + now split.
    + rewrite Hl. run_handler. now split.
Qed.

Lemma predict_from_csv_failures_witness :
  snd (predict_from_csv
         {| imputer_feature_names_in_ := None;
            predict_proba_1 := fun _ => inr [];
            predict := fun _ => inr [] |}
         (sample_upload []))
  = inl (HTTPException 500
           "El modelo cargado no contiene 'imputer' en el pipeline.")
  /\ snd (predict_from_csv
            {| imputer_feature_names_in_ := Some ["koi_score"];
               predict_proba_1 := fun _ => inl "could not convert string to float";
               predict := fun _ => inr [] |}
            (sample_upload []))
     = inl (HTTPException 500
              "Error en la predicción: could not convert string to float").
Proof.
  split.
  - apply (proj1 (proj2 (predict_from_csv_failures
                           {| imputer_feature_names_in_ := None;
                              predict_proba_1 := fun _ => inr [];
                              predict := fun _ => inr [] |}
                           (sample_upload []) eq_refl))
                 _ eq_refl eq_refl).
  - apply (proj2 (proj2 (predict_from_csv_failures
                           {| imputer_feature_names_in_ := Some ["koi_score"];
                              predict_proba_1 :=
                                fun _ => inl "could not convert string to float";
                              predict := fun _ => inr [] |}
                           (sample_upload []) eq_refl))
                 _ ["koi_score"] [("koi_score", [Num 1; Num 2])]
                 "could not convert string to float"
                 eq_refl eq_refl eq_refl (or_introl eq_refl)).
Defined.

(** X14.  The prediction handler writes nothing unless it answers with
    the CSV: on every error no temporary file has been created; and it
    calls the pipeline only on a table that holds every declared
    column. *)
Theorem predict_from_csv_error_writes_nothing :
  forall (model : Pipeline) (file : UploadFile cell),
    (forall e,
        snd (predict_from_csv model file) = inl e ->
        no_output (fst (predict_from_csv model file)))
    /\ (In ev_predict_proba (fst (predict_from_csv model file)) ->
        exists df feats,
          read_csv_result file = inr df
          /\ imputer_feature_names_in_ model = Some feats
          /\ forall c, In c feats -> In c (columns df)).
Proof.
  intros model file. split.
  - intros e. unfold predict_from_csv.
    handler_cases; try discriminate; intros _; reflexivity.
  - unfold predict_from_csv.
    handler_cases; try solve [not_in_log]; intros _;
      match goal with
      | Hm : negb (is_nil (filter _ ?feats)) = false |- _ =>
          apply negb_false_iff in Hm;
          destruct (filter _ feats) eqn:Ef in Hm; [|discriminate Hm];
          eexists; exists feats; split; [reflexivity|];
          split; [reflexivity|]; now apply no_missing_columns
      end.
Qed.

Lemma predict_from_csv_error_writes_nothing_witness :
  no_output
    (fst (predict_from_csv
            {| imputer_feature_names_in_ := Some FEATURE_COLS;
               predict_proba_1 := fun _ => inr [1 # 2];
               predict := fun _ => inr [Num 1] |}
            (sample_upload []))).
Proof.
  apply (proj1 (predict_from_csv_error_writes_nothing
                  {| imputer_feature_names_in_ := Some FEATURE_COLS;
                     predict_proba_1 := fun _ => inr [1 # 2];
                     predict := fun _ => inr [Num 1] |}
                  (sample_upload []))
               _ eq_refl).
Defined.
